(** * gluestick.etl_utils: hash snapshots and redundant-row filtering

    A shallow embedding of [read_snapshots], [snapshot_records],
    [get_row_hash] and [drop_redundant] from [gluestick/etl_utils.py], and
    of [read_csv_folder], [Reader.read_directories] and
    [Reader.get_types_from_catalog] of the same file.

    Python objects are kept the way the code uses them:
    - a DataFrame is an ordered list of column labels and a list of rows,
      each row carrying its index label and one cell per column;
    - DataFrame objects live in a heap and the local variables of
      [drop_redundant] hold references, so that [df.copy()] and the in-place
      assignment [df["hash"] = ...] are distinguishable;
    - the snapshot directory is a finite map from paths to CSV tables;
    - an exception aborts the rest of the call and keeps every effect that
      happened before it.

    pandas and hashlib are libraries, not code of this repository.  The
    pandas calls are modelled on frames whose cells are strings, integers,
    booleans or null (floating-point columns are outside the model); a CSV
    file is kept as the table that pandas parses from it, and [read_csv]
    returns it under a fresh RangeIndex.  The text of a file and the dtype
    inference of [read_csv] on it are not modelled: no statement below
    relies on the values of a table that was written and read again.  What
    a failing write raises and leaves behind is for the platform to say and
    is left open.  [hashlib.md5] and the DataFrame-valued column assignment
    of line 277 are parameters. *)

From Stdlib Require Import ZArith DecimalString.
From stdpp Require Import gmap strings list fin_maps.

Open Scope Z_scope.
Open Scope string_scope.
Open Scope list_scope.

(** ** Python values and exceptions *)

Inductive exn : Set :=
  | KeyError
  | TypeError
  | ValueError
  | UnboundLocalError
  | FileNotFoundError
  | OSError.

Inductive value : Set :=
  | VStr (s : string)
  | VInt (z : Z)
  | VBool (b : bool)
  | VNaN.

#[global] Instance exn_eq_dec : EqDecision exn.
Proof. solve_decision. Defined.

#[global] Instance value_eq_dec : EqDecision value.
Proof. solve_decision. Defined.

(** [str(v)], as [Series.astype(str)] applies it to every element. *)
Definition astype_str (v : value) : string :=
  match v with
  | VStr s => s
  | VInt z => NilZero.string_of_int (Z.to_int z)
  | VBool true => "True"
  | VBool false => "False"
  | VNaN => "nan"
  end.

(** The [pk] argument: the docstring allows a list or a plain string. *)
Inductive PyPk : Set :=
  | PkStr (s : string)
  | PkList (l : list string).

(** [if pk:] *)
Definition truthy (pk : PyPk) : bool :=
  match pk with
  | PkStr s => bool_decide (s ≠ "")
  | PkList l => bool_decide (l ≠ [])
  end.

(** [isinstance(pk, list)] *)
Definition isinstance_list (pk : PyPk) : bool :=
  match pk with PkList _ => true | PkStr _ => false end.

(** [pk + ["hash"]]: list concatenation; [str + list] is a TypeError. *)
Definition pk_add (pk : PyPk) (l : list string) : exn + list string :=
  match pk with
  | PkList cs => inr (cs ++ l)
  | PkStr _ => inl TypeError
  end.

(** How pandas reads a label-or-list-of-labels argument ([subset=], [on=],
    [df[...]] with a list). *)
Definition labels_of (pk : PyPk) : list string :=
  match pk with
  | PkStr s => [s]
  | PkList l => l
  end.

(** ** The pandas operations the module calls *)

Module pd.

Record Row : Set := mkRow { label : value; cells : list value }.

Record DataFrame : Set := mkDF { columns : list string; rows : list Row }.

#[global] Instance Row_eq_dec : EqDecision Row.
Proof. solve_decision. Defined.

#[global] Instance DataFrame_eq_dec : EqDecision DataFrame.
Proof. solve_decision. Defined.

#[global] Instance DataFrame_inhabited : Inhabited DataFrame :=
  populate (mkDF [] []).

(** Every row has one cell per column. *)
Definition wf (d : DataFrame) : Prop :=
  Forall (λ r, length (cells r) = length (columns d)) (rows d).

#[global] Instance wf_dec d : Decision (wf d).
Proof. unfold wf. apply _. Defined.

(** [df.empty]: some axis has length 0. *)
Definition empty (d : DataFrame) : bool :=
  bool_decide (rows d = []) || bool_decide (columns d = []).

(** Position of the first column labelled [c]. *)
Fixpoint index_of (c : string) (cols : list string) : option nat :=
  match cols with
  | [] => None
  | c' :: cols' =>
      if decide (c = c') then Some 0%nat else S <$> index_of c cols'
  end.

Definition indices (cs cols : list string) : option (list nat) :=
  mapM (λ c, index_of c cols) cs.

Definition cell (i : nat) (r : Row) : value := default VNaN (cells r !! i).

(** The values of a row in the columns at positions [ix]. *)
Definition key_of (ix : list nat) (r : Row) : list value :=
  map (λ i, cell i r) ix.

(** [df[cs]] with a list of labels: a new frame; KeyError on a missing
    label. *)
Definition getitem (cs : list string) (d : DataFrame) : exn + DataFrame :=
  match indices cs (columns d) with
  | Some ix =>
      inr (mkDF cs (map (λ r, mkRow (label r) (key_of ix r)) (rows d)))
  | None => inl KeyError
  end.

Section dedup.
Context {K : Type} `{EqDecision K} (key : Row → K).

(** keep="first": a row survives when no earlier row has its key. *)
Fixpoint dedup_first (rs : list Row) : list Row :=
  match rs with
  | [] => []
  | r :: rs' => r :: filter (λ r', key r' ≠ key r) (dedup_first rs')
  end.

(** keep="last": a row survives when no later row has its key. *)
Fixpoint dedup_last (rs : list Row) : list Row :=
  match rs with
  | [] => []
  | r :: rs' =>
      if decide (key r ∈ map key rs') then dedup_last rs'
      else r :: dedup_last rs'
  end.
End dedup.

Inductive keep : Set := keep_first | keep_last.

(** [df.drop_duplicates(subset, keep=...)]: an empty frame is copied
    without looking at [subset]; otherwise a label of [subset] that is not
    a column is a KeyError, and an empty [subset] fails while the column
    arrays are unpacked.  The surviving rows keep their index labels. *)
Definition drop_duplicates (subset : list string) (k : keep)
    (d : DataFrame) : exn + DataFrame :=
  if empty d then inr d
  else match indices subset (columns d) with
       | None => inl KeyError
       | Some [] => inl ValueError
       | Some ix =>
           inr (mkDF (columns d)
                  (match k with
                   | keep_first => dedup_first (key_of ix) (rows d)
                   | keep_last => dedup_last (key_of ix) (rows d)
                   end))
       end.

(** [row[c]] for a row of a frame with columns [cols]; NaN for a column
    the frame does not have. *)
Definition at_col (cols : list string) (c : string) (r : Row) : value :=
  match index_of c cols with
  | Some i => cell i r
  | None => VNaN
  end.

(** The primary-key value of a row: its values in the columns [cs]. *)
Definition pk_value (cs cols : list string) (r : Row) : list value :=
  map (λ c, at_col cols c r) cs.

(** A row of a frame with columns [from], laid out on the columns [cols];
    a column the row does not have is NaN. *)
Definition reindex_row (cols from : list string) (r : Row) : Row :=
  mkRow (label r) (map (λ c, at_col from c r) cols).

(** [pd.concat([a, b])]: rows of [a] then rows of [b], on the union of the
    columns in order of appearance, index labels kept. *)
Definition concat (a b : DataFrame) : DataFrame :=
  let cols :=
    columns a ++ filter (λ c, c ∉ columns a) (columns b) in
  mkDF cols
    (map (reindex_row cols (columns a)) (rows a) ++
     map (reindex_row cols (columns b)) (rows b)).

(** [df[c] = series] for a series on the frame's own index: overwrite the
    column when it exists, append it otherwise. *)
Definition setitem (c : string) (vals : list value) (d : DataFrame)
    : DataFrame :=
  match index_of c (columns d) with
  | Some i =>
      mkDF (columns d)
        (zip_with (λ r v, mkRow (label r) (<[i:=v]> (cells r)))
           (rows d) vals)
  | None =>
      mkDF (columns d ++ [c])
        (zip_with (λ r v, mkRow (label r) (cells r ++ [v])) (rows d) vals)
  end.

(** [df.drop(c, axis=1)] *)
Definition drop (c : string) (d : DataFrame) : exn + DataFrame :=
  match index_of c (columns d) with
  | Some i =>
      inr (mkDF (delete i (columns d))
             (map (λ r, mkRow (label r) (delete i (cells r))) (rows d)))
  | None => inl KeyError
  end.

(** [df[df[c] == v]]: boolean-mask selection. *)
Definition select_eq (c : string) (v : value) (d : DataFrame)
    : exn + DataFrame :=
  match index_of c (columns d) with
  | Some i => inr (mkDF (columns d) (filter (λ r, cell i r = v) (rows d)))
  | None => inl KeyError
  end.

Definition range_index (rs : list (list value)) : list Row :=
  imap (λ i cs, mkRow (VInt (Z.of_nat i)) cs) rs.

(** [left.merge(right, on=on, how="left", indicator=...)]: every left row
    in order, once per right row with the same key, or once padded with
    NaN when there is none; the right frame contributes its non-key
    columns; labels shared by the non-key columns get the suffixes [_x]
    and [_y]; the result has a fresh RangeIndex. *)
Definition merge_left (on : list string) (indicator : bool)
    (left right : DataFrame) : exn + DataFrame :=
  match indices on (columns left), indices on (columns right) with
  | Some li, Some ri =>
      if indicator &&
         bool_decide ("_merge" ∈ columns left ∨ "_merge" ∈ columns right)
      then inl ValueError
      else
        let extra := filter (λ c, c ∉ on) (columns right) in
        let clash c := bool_decide (c ∈ columns left ∧ c ∈ extra) in
        let lcols :=
          map (λ c, if clash c then c +:+ "_x" else c) (columns left) in
        let rcols := map (λ c, if clash c then c +:+ "_y" else c) extra in
        let pad ind := if indicator then [VStr ind] else [] in
        let rcells rr := cells (reindex_row extra (columns right) rr) in
        let joined lr :=
          match filter (λ rr, key_of ri rr = key_of li lr) (rows right) with
          | [] => [cells lr ++ map (λ _, VNaN) extra ++ pad "left_only"]
          | ms => map (λ rr, cells lr ++ rcells rr ++ pad "both") ms
          end in
        inr (mkDF (lcols ++ rcols ++ (if indicator then ["_merge"] else []))
               (range_index (flat_map joined (rows left))))
  | _, _ => inl KeyError
  end.

(** [self.isin(values)] with a DataFrame: [values] needs unique axes; a
    cell is True when [values] has the same value under the same index
    label and column label (NaN equals nothing). *)
Definition isin (self values : DataFrame) : exn + DataFrame :=
  if bool_decide (NoDup (map label (rows values)) ∧ NoDup (columns values))
  then
    let other r c :=
      match list_find (λ r', label r' = label r) (rows values),
            index_of c (columns values) with
      | Some (_, r'), Some j => cell j r'
      | _, _ => VNaN
      end in
    let same r '(i, c) :=
      VBool (bool_decide (cell i r = other r c ∧ cell i r ≠ VNaN)) in
    inr (mkDF (columns self)
           (map (λ r, mkRow (label r)
                        (map (same r) (imap pair (columns self))))
              (rows self)))
  else inl ValueError.

End pd.

Export pd.

(** ** The world: DataFrame objects and the snapshot directory *)

(** A CSV file, as the table pandas parses from it: the column labels and
    the rows, without an index. *)
Record CsvFile : Set := mkCsv { header : list string; lines : list (list value) }.

#[global] Instance CsvFile_eq_dec : EqDecision CsvFile.
Proof. solve_decision. Defined.

(** A reference to a DataFrame object: its position in the heap. *)
Abbreviation loc := nat (only parsing).

(** A write that fails.  The code fixes neither the exception nor the
    state of the file, so both are left open: [fault_exn] is the exception
    the write raises, [fault_leaves] what is at the path afterwards, [None]
    when the failure came before the file was opened for writing and the
    file is as it was. *)
Record Fault : Set := mkFault {
  fault_exn : exn;
  fault_leaves : option CsvFile
}.

(** [disk_fault = Some f]: writing a file fails as [f] says; [None]: it
    does not fail. *)
Record World : Type := mkWorld {
  heap : list DataFrame;
  files : gmap string CsvFile;
  disk_fault : option Fault
}.

(** Computations that read and change the world and may raise. *)
Definition M (A : Type) : Type := World → (exn + A) * World.

Definition ret {A} (a : A) : M A := λ w, (inr a, w).

Definition raise {A} (e : exn) : M A := λ w, (inl e, w).

Definition bind {A B} (m : M A) (f : A → M B) : M B :=
  λ w, match m w with
       | (inr a, w') => f a w'
       | (inl e, w') => (inl e, w')
       end.

Definition lift {A} (r : exn + A) : M A :=
  match r with
  | inl e => raise e
  | inr a => ret a
  end.

Notation "x <- m ;; k" := (bind m (λ x, k))
  (at level 100, m at next level, right associativity,
   format "'[v' x  <-  m  ;;  '/' k ']'").
Notation "m ;; k" := (bind m (λ _, k))
  (at level 100, right associativity, format "'[v' m  ;;  '/' k ']'").

(** *** Objects *)

Definition push (d : DataFrame) (w : World) : World :=
  mkWorld (heap w ++ [d]) (files w) (disk_fault w).

Definition poke (l : loc) (d : DataFrame) (w : World) : World :=
  mkWorld (<[l:=d]> (heap w)) (files w) (disk_fault w).

(** A new object; its reference is the next free one. *)
Definition alloc (d : DataFrame) : M loc :=
  λ w, (inr (length (heap w)), push d w).

Definition load (l : loc) : M DataFrame :=
  λ w, (inr (heap w !!! l), w).

(** An in-place change of the object at [l]. *)
Definition store (l : loc) (d : DataFrame) : M unit :=
  λ w, (inr tt, poke l d w).

(** *** Files *)

(** [os.path.isfile(path)] *)
Definition isfile (path : string) : M bool :=
  λ w, (inr (bool_decide (is_Some (files w !! path))), w).

Definition frame_of_csv (f : CsvFile) : DataFrame :=
  mkDF (header f) (range_index (lines f)).

(** [pd.read_csv(path)]: the table of the file under a fresh RangeIndex.
    A [CsvFile] stands for the table that pandas parses from the text of
    the file; a file that pandas cannot parse is outside the model, and so
    is the dtype inference on the text: the cells of a file that [to_csv]
    wrote are taken to be read back as they were written. *)
Definition read_csv (path : string) : M DataFrame :=
  λ w, match files w !! path with
       | Some f => (inr (frame_of_csv f), w)
       | None => (inl FileNotFoundError, w)
       end.

Definition put_file (path : string) (f : CsvFile) (w : World) : World :=
  mkWorld (heap w) (<[path:=f]> (files w)) (disk_fault w).

(** The world after a write to [path] has failed as [f] says. *)
Definition after_fault (f : Fault) (path : string) (w : World) : World :=
  match fault_leaves f with
  | Some partial => put_file path partial w
  | None => w
  end.

(** [d.to_csv(path, index=False)]: the table goes to the file at [path]
    itself, column labels and rows, without the index.  A write that fails
    raises and leaves at [path] what the fault says. *)
Definition to_csv (d : DataFrame) (path : string) : M unit :=
  λ w, match disk_fault w with
       | Some f => (inl (fault_exn f), after_fault f path w)
       | None =>
           (inr tt, put_file path (mkCsv (columns d) (map cells (rows d))) w)
       end.

(** *** DataFrame methods on references

    Every method that returns a frame returns a new object; only the two
    item assignments change an object in place. *)

Definition df_new (op : DataFrame → exn + DataFrame) (l : loc) : M loc :=
  d <- load l ;; d' <- lift (op d) ;; alloc d'.

Definition df_new2 (op : DataFrame → DataFrame → exn + DataFrame)
    (l r : loc) : M loc :=
  dl <- load l ;; dr <- load r ;; d' <- lift (op dl dr) ;; alloc d'.

Definition df_read_csv (path : string) : M loc :=
  d <- read_csv path ;; alloc d.

Definition df_copy (l : loc) : M loc := df_new inr l.

Definition df_drop_duplicates (l : loc) (subset : list string) (k : keep)
    : M loc :=
  df_new (drop_duplicates subset k) l.

Definition df_getitem (l : loc) (cs : list string) : M loc :=
  df_new (getitem cs) l.

Definition df_select_eq (l : loc) (c : string) (v : value) : M loc :=
  df_new (select_eq c v) l.

Definition df_drop (l : loc) (c : string) : M loc := df_new (drop c) l.

Definition df_merge (l r : loc) (on : list string) (indicator : bool)
    : M loc :=
  df_new2 (merge_left on indicator) l r.

Definition df_isin (l values : loc) : M loc := df_new2 isin l values.

(** [df.apply(f, axis=1)]: the values of [f] on the rows, in order. *)
Definition df_apply (f : Row → value) (l : loc) : M (list value) :=
  d <- load l ;; ret (map f (rows d)).

Definition df_setitem (l : loc) (c : string) (vals : list value) : M unit :=
  d <- load l ;; store l (setitem c vals d).

(** ** Folders of extracted files

    [read_csv_folder] and [Reader.read_directories] scan a folder and name
    every file after its entity.  What the operating system answers
    ([os.path.isdir], [os.listdir], [os.path.isfile]) is an argument. *)

(** *** Python string methods *)

(** [s.endswith(suffix)] *)
Fixpoint endswith (s suffix : string) : bool :=
  bool_decide (s = suffix) ||
  match s with
  | "" => false
  | String _ s' => endswith s' suffix
  end.

(** [sub in s] *)
Fixpoint contains (sub s : string) : bool :=
  String.prefix sub s ||
  match s with
  | "" => false
  | String _ s' => contains sub s'
  end.

(** [s.split(sep)] for a separator of one character. *)
Fixpoint split (sep s : string) : list string :=
  match s with
  | "" => [""]
  | String a s' =>
      if decide (String a "" = sep) then "" :: split sep s'
      else match split sep s' with
           | h :: t => String a h :: t
           | [] => [String a ""]
           end
  end.

(** The text before the last occurrence of [sep] in [s], when there is
    one: a later occurrence, in the tail, has priority. *)
Fixpoint before_last (sep s : string) : option string :=
  match s with
  | "" => if String.prefix sep "" then Some "" else None
  | String a s' =>
      match before_last sep s' with
      | Some h => Some (String a h)
      | None => if String.prefix sep s then Some "" else None
      end
  end.

(** [s.rsplit(sep, 1)[0]] for a non-empty [sep]: [s] itself when [sep] does
    not occur. *)
Definition rsplit1_head (sep s : string) : string :=
  default s (before_last sep s).

(** [os.path.join(a, b)] (posixpath). *)
Definition path_join (a b : string) : string :=
  if String.prefix "/" b then b
  else if bool_decide (a = "") || endswith a "/" then a +:+ b
  else a +:+ "/" +:+ b.

(** *** The operating system *)

Record OS : Type := mkOS {
  os_isdir : string → bool;
  os_listdir : string → list string;
  os_isfile : string → bool
}.

(** *** Entity names

    Lines 67-71, 126-130 and 371-375: the last path component, cut before
    the last occurrence of the extension marker [ext] (".csv", ".parquet" or
    "."), then before its last hyphen if it has one. *)
Definition entity_type (ext file : string) : string :=
  let split_path := split "/" file in
  let entity_type := rsplit1_head ext (default "" (last split_path)) in
  if contains "-" entity_type then rsplit1_head "-" entity_type
  else entity_type.

(** The first of [files] whose entity is [e]. *)
Definition first_of (ext : string) (files : list string) (e : string)
    : option string :=
  snd <$> list_find (λ file, entity_type ext file = e) files.

(** *** [read_csv_folder], lines 11-81, with [converters] and [index_cols]
    at their defaults ([{}]), so that [read_csv] gets [None] for both. *)

(** Lines 53-64: the files to look at. *)
Definition csv_files (os : OS) (path : string) : list string :=
  if os_isdir os path then
    filter (λ file, os_isfile os file = true ∧ endswith file ".csv" = true)
      (map (path_join path) (os_listdir os path))
  else [path].

(** Lines 66-79: a file is read when its entity is neither read already nor
    ignored. *)
Fixpoint read_csv_files (ignore all_files : list string)
    (results : gmap string DataFrame) : M (gmap string DataFrame) :=
  match all_files with
  | [] => ret results
  | file :: all_files' =>
      let entity := entity_type ".csv" file in
      if bool_decide (results !! entity = None) &&
         bool_decide (entity ∉ ignore)
      then
        table <- read_csv file ;;
        read_csv_files ignore all_files' (<[entity := table]> results)
      else read_csv_files ignore all_files' results
  end.

Definition read_csv_folder (os : OS) (path : string) (ignore : list string)
    : M (gmap string DataFrame) :=
  read_csv_files ignore (csv_files os path) ∅.

(** *** [Reader.read_directories], lines 344-380 *)

(** Lines 358-368: the files to look at. *)
Definition reader_files (os : OS) (dir : string) : list string :=
  if os_isdir os dir then
    filter (λ file_path,
              os_isfile os file_path = true ∧
              (endswith file_path ".csv" = true ∨
               endswith file_path ".parquet" = true))
      (map (path_join dir) (os_listdir os dir))
  else [dir].

(** Lines 370-380: the first file of an entity that is not ignored is the
    one recorded. *)
Definition read_directories (os : OS) (dir : string) (ignore : list string)
    : gmap string string :=
  foldl (λ results file,
           let entity := entity_type "." file in
           if bool_decide (results !! entity = None) &&
              bool_decide (entity ∉ ignore)
           then <[entity := file]> results
           else results)
    ∅ (reader_files os dir).

(** ** The catalog: [Reader.get_types_from_catalog], lines 392-431

    The catalog is what [json.load] returned: a Python value made of dicts,
    lists, strings, integers, booleans and [None] (floats are outside the
    model).  A dict is the list of its items, with distinct keys. *)

Module py.

#[local] Set Warnings "-register-all".

Inductive json : Type :=
  | JNull
  | JBool (b : bool)
  | JInt (z : Z)
  | JStr (s : string)
  | JList (l : list json)
  | JDict (items : list (string * json)).

Inductive error : Set :=
  | AttributeError
  | KeyError
  | TypeError
  | StopIteration.

(** [bool(x)] *)
Definition truthy (x : json) : bool :=
  match x with
  | JNull => false
  | JBool b => b
  | JInt z => bool_decide (z ≠ 0)
  | JStr s => bool_decide (s ≠ "")
  | JList l => bool_decide (l ≠ [])
  | JDict items => bool_decide (items ≠ [])
  end.

(** [x == s] for a string [s]. *)
Definition is_str (x : json) (s : string) : bool :=
  match x with
  | JStr s' => bool_decide (s' = s)
  | _ => false
  end.

Fixpoint dict_get (items : list (string * json)) (k : string) : option json :=
  match items with
  | [] => None
  | (k', v) :: items' => if decide (k = k') then Some v else dict_get items' k
  end.

(** [x.get(k)]: only a dict has the method. *)
Definition get (x : json) (k : string) : error + json :=
  match x with
  | JDict items => inr (default JNull (dict_get items k))
  | _ => inl AttributeError
  end.

(** [x[k]] for a string [k]. *)
Definition getitem (x : json) (k : string) : error + json :=
  match x with
  | JDict items =>
      match dict_get items k with
      | Some v => inr v
      | None => inl KeyError
      end
  | _ => inl TypeError
  end.

(** [for t in x]: the elements of a list, the characters of a string, the
    keys of a dict; nothing else is iterable. *)
Definition iter (x : json) : error + list json :=
  match x with
  | JList l => inr l
  | JStr s => inr (map (λ c, JStr (String c "")) (String.list_ascii_of_string s))
  | JDict items => inr (map (λ kv, JStr kv.1) items)
  | _ => inl TypeError
  end.

Inductive dtype : Set := Int64 | float | object.

(** [type_mapper.get(t, "object")] with
    [type_mapper = {"integer": "Int64", "number": float}]; a list or a dict
    cannot be hashed. *)
Definition type_mapper_get (t : json) : error + dtype :=
  match t with
  | JList _ | JDict _ => inl TypeError
  | _ => inr (if is_str t "integer" then Int64
              else if is_str t "number" then float
              else object)
  end.

Definition and_then {A B} (r : error + A) (f : A → error + B) : error + B :=
  match r with
  | inl e => inl e
  | inr a => f a
  end.

(** Lines 419-429, the body of the loop for one column: [None] when the
    column goes to [parse_dates], its dtype otherwise. *)
Definition column_type (col_type : json) : error + option dtype :=
  if truthy col_type then
    and_then (get col_type "format") (λ format,
    if is_str format "date-time" then inr None
    else
      and_then (get col_type "type") (λ type,
      if truthy type then
        and_then (getitem col_type "type") (λ type,
        and_then (iter type) (λ ts,
        let catalog_type := filter (λ t, is_str t "null" = false) ts in
        match catalog_type with
        | [t] => and_then (type_mapper_get t) (λ d, inr (Some d))
        | _ => inr (Some object)
        end))
      else inr (Some object)))
  else inr (Some object).

(** The keyword arguments for [read_csv]. *)
Record read_args : Type := mkArgs {
  dtype_of : gmap string dtype;
  parse_dates : list string
}.

(** Lines 418-429. *)
Fixpoint types_loop (types : json) (headers : list string) (acc : read_args)
    : error + read_args :=
  match headers with
  | [] => inr acc
  | col :: headers' =>
      and_then (get types col) (λ col_type,
      and_then (column_type col_type) (λ kind,
      match kind with
      | None =>
          types_loop types headers'
            (mkArgs (dtype_of acc) (parse_dates acc ++ [col]))
      | Some d =>
          types_loop types headers'
            (mkArgs (<[col := d]> (dtype_of acc)) (parse_dates acc))
      end))
  end.

(** Line 411: the first stream object called [stream]. *)
Fixpoint next_stream (streams : list json) (stream : string) : error + json :=
  match streams with
  | [] => inl StopIteration
  | c :: streams' =>
      and_then (getitem c "stream") (λ name,
      if is_str name stream then inr c else next_stream streams' stream)
  end.

(** Line 409: the columns of the file read with [index_col=0], that is all
    of them but the first. *)
Definition headers_of (f : CsvFile) : list string := tail (header f).

(** Lines 392-431, from the headers read at line 409. *)
Definition get_types_from_catalog (headers : list string) (catalog : json)
    (stream : string) : error + read_args :=
  and_then (getitem catalog "streams") (λ all_streams,
  and_then (iter all_streams) (λ all_streams,
  and_then (next_stream all_streams stream) (λ streams,
  and_then (getitem streams "schema") (λ schema,
  and_then (getitem schema "properties") (λ types,
  types_loop types headers (mkArgs ∅ [])))))).

(** What the loop decides for the column [col]. *)
Definition kind_of (types : json) (col : string) : error + option dtype :=
  and_then (get types col) column_type.

End py.

(** ** The module *)

Section etl_utils.

(** [hashlib.md5(b).hexdigest()] *)
Variable md5_hexdigest : string → string.

(** [self[key] = value] with a DataFrame [value]: what the object [self]
    holds afterwards, or the exception raised. *)
Variable setitem_frame : string → DataFrame → DataFrame → exn + DataFrame.

Definition df_setitem_frame (l : loc) (c : string) (value : loc) : M unit :=
  d <- load l ;; v <- load value ;;
  d' <- lift (setitem_frame c v d) ;; store l d'.

(** The path of [f"{snapshot_dir}/{stream}.snapshot.csv"]. *)
Definition snapshot_path (snapshot_dir stream : string) : string :=
  snapshot_dir +:+ "/" +:+ stream +:+ ".snapshot.csv".

(** Lines 138-161; a snapshot that does not exist is [None]. *)
Definition read_snapshots (stream snapshot_dir : string)
    : M (option DataFrame) :=
  isf <- isfile (snapshot_path snapshot_dir stream) ;;
  if isf : bool then
    snapshot <- read_csv (snapshot_path snapshot_dir stream) ;;
    ret (Some snapshot)
  else ret None.

(** Lines 164-210.  The frames are passed by value: the function neither
    changes nor keeps them.  The first [if] returns only when [just_new] is
    false; otherwise control falls through to the last [if]. *)
Definition snapshot_records (stream_data : option DataFrame)
    (stream snapshot_dir : string) (pk : PyPk) (just_new : bool)
    : M (option DataFrame) :=
  snapshot <- read_snapshots stream snapshot_dir ;;
  returned <-
    match stream_data, snapshot with
    | Some new, Some old =>
        let merged_data := concat old new in
        merged_data <- lift (drop_duplicates (labels_of pk) keep_last merged_data) ;;
        to_csv merged_data (snapshot_path snapshot_dir stream) ;;
        if negb just_new then ret (Some (Some merged_data)) else ret None
    | _, _ => ret None
    end ;;
  match returned with
  | Some result => ret result
  | None =>
      match stream_data, snapshot with
      | Some new, None =>
          to_csv new (snapshot_path snapshot_dir stream) ;;
          ret stream_data
      | _, _ => if just_new then ret stream_data else ret snapshot
      end
  end.

(** Lines 213-228: the cells as strings, joined without a separator,
    encoded (a string is already its bytes here) and digested. *)
Definition get_row_hash (row : Row) : string :=
  let row_str := String.concat "" (map astype_str (cells row)) in
  md5_hexdigest row_str.

(** Lines 259-263 of [drop_redundant]: the caller's frame is copied and
    the copy loses the rows that repeat an earlier primary key. *)
Definition drop_redundant_unique (df : loc) (pk : PyPk) : M loc :=
  df <- df_copy df ;;
  if truthy pk then df_drop_duplicates df (labels_of pk) keep_first
  else ret df.

(** Lines 267-284 of [drop_redundant]: the comparison with the stored
    hashes.  [updated_pk] is bound only under [updated_flag and pk]; line
    284 reads it unconditionally. *)
Definition drop_redundant_compare (df : loc) (name output_dir : string)
    (pk : PyPk) (updated_flag : bool) : M (loc * PyPk) :=
  isf <- isfile (output_dir +:+ "/" +:+ name +:+ ".hash.snapshot.csv") ;;
  if isf : bool then
    let pk := if negb (isinstance_list pk) then PkList (labels_of pk)
              else pk in
    hash_df <- df_read_csv (output_dir +:+ "/" +:+ name +:+ ".hash.snapshot.csv") ;;
    hash_df <- (if truthy pk
                then df_drop_duplicates hash_df (labels_of pk) keep_first
                else ret hash_df) ;;
    updated_pk <- (if updated_flag && truthy pk then
                     updated_pk <- df_getitem df (labels_of pk) ;;
                     known <- df_getitem hash_df (labels_of pk) ;;
                     flags <- df_isin updated_pk known ;;
                     df_setitem_frame updated_pk "_updated" flags ;;
                     ret (Some updated_pk)
                   else ret None) ;;
    keys <- lift (pk_add pk ["hash"]) ;;
    right <- df_getitem hash_df keys ;;
    on <- lift (pk_add pk ["hash"]) ;;
    df <- df_merge df right on true ;;
    df <- df_select_eq df "_merge" (VStr "left_only") ;;
    df <- df_drop df "_merge" ;;
    updated_pk <- match updated_pk with
                  | Some l => ret l
                  | None => raise UnboundLocalError
                  end ;;
    df <- df_merge df updated_pk (labels_of pk) false ;;
    ret (df, pk)
  else ret (df, pk).

(** Lines 231-288. *)
Definition drop_redundant (df : loc) (name output_dir : string)
    (pk : PyPk) (updated_flag : bool) : M loc :=
  df <- drop_redundant_unique df pk ;;
  hashes <- df_apply (λ row, VStr (get_row_hash row)) df ;;
  df_setitem df "hash" hashes ;;
  compared <- drop_redundant_compare df name output_dir pk updated_flag ;;
  let '(df, pk) := compared in
  keys <- lift (pk_add pk ["hash"]) ;;
  stream_data <- df_getitem df keys ;;
  stream_data <- load stream_data ;;
  snapshot_records (Some stream_data) (name +:+ ".hash") output_dir pk false ;;
  df <- df_drop df "hash" ;;
  ret df.

(** ** Concrete data

    The scenario of the specification: a stored snapshot with the row
    (A, x1), a batch with the rows (A, 1) and (B, 2), and a digest that
    sends the row strings "A1" and "B2" to "x1" and "y1". *)

Definition scenario_digest (s : string) : string :=
  if decide (s = "A1") then "x1"
  else if decide (s = "B2") then "y1"
  else "d_" +:+ s.

(** The reading of recent pandas for line 277: a one-column frame is
    assigned as that column, anything else is refused. *)
Definition setitem_one_column (c : string) (v self : DataFrame)
    : exn + DataFrame :=
  match columns v with
  | [_] => inr (setitem c (map (cell 0) (rows v)) self)
  | _ => inl ValueError
  end.

Definition scenario_batch : DataFrame :=
  mkDF ["id"; "val"]
    [mkRow (VInt 0) [VStr "A"; VInt 1]; mkRow (VInt 1) [VStr "B"; VInt 2]].

Definition scenario_snapshot : CsvFile :=
  mkCsv ["id"; "hash"] [[VStr "A"; VStr "x1"]].

(** The batch is object 0; the snapshot of stream "s" is in "out". *)
Definition scenario_world : World :=
  mkWorld [scenario_batch]
    {["out/s.hash.snapshot.csv" := scenario_snapshot]} None.

(** The same batch before any run of the stream. *)
Definition first_run_world : World := mkWorld [scenario_batch] ∅ None.

(** A stored snapshot with the row (1, ha) and incoming data with the row
    (1, hb). *)
Definition stored_1_ha : CsvFile := mkCsv ["pk"; "hash"] [[VInt 1; VStr "ha"]].

Definition incoming_1_hb : DataFrame :=
  mkDF ["pk"; "hash"] [mkRow (VInt 0) [VInt 1; VStr "hb"]].

Definition collision_world : World :=
  mkWorld [] {["out/s.snapshot.csv" := stored_1_ha]} None.

(** A write that fails with OSError when only the header has reached the
    file. *)
Definition header_only_fault (key : list string) : Fault :=
  mkFault OSError (Some (mkCsv (key ++ ["hash"]) [])).

Definition failing_disk_world : World :=
  mkWorld [] {["out/s.snapshot.csv" := stored_1_ha]}
    (Some (header_only_fault ["pk"])).

(** The same failure with the incoming row as the batch of a first run. *)
Definition failing_batch_world : World :=
  mkWorld [incoming_1_hb] {["out/s.snapshot.csv" := stored_1_ha]}
    (Some (header_only_fault ["pk"])).

(** The same failure with the batch of the scenario and no hash
    snapshot. *)
Definition failing_first_run_world : World :=
  mkWorld [scenario_batch] ∅ (Some (header_only_fault ["id"])).

(** A stored snapshot with the keys 1 and 2; the incoming data has only
    the key 1. *)
Definition stored_1_2 : CsvFile :=
  mkCsv ["pk"; "hash"] [[VInt 1; VStr "ha"]; [VInt 2; VStr "hc"]].

Definition stored_1_2_world : World :=
  mkWorld [] {["out/s.snapshot.csv" := stored_1_2]} None.

(** A batch with two rows of primary key 5 and differing content. *)
Definition batch_two_fives : DataFrame :=
  mkDF ["pk"; "val"]
    [mkRow (VInt 0) [VInt 5; VStr "first"];
     mkRow (VInt 1) [VInt 7; VStr "other"];
     mkRow (VInt 2) [VInt 5; VStr "second"]].

Definition two_fives_world : World := mkWorld [batch_two_fives] ∅ None.

(** A batch that has a column named "hash" of its own. *)
Definition batch_with_hash : DataFrame :=
  mkDF ["id"; "hash"] [mkRow (VInt 0) [VInt 1; VStr "h"]].

Definition hash_column_world : World := mkWorld [batch_with_hash] ∅ None.

(** Two rows of different index labels and cell types whose cells coerce
    to the same strings. *)
Definition row_typed : Row := mkRow (VInt 0) [VInt 1; VBool true; VNaN].

Definition row_text : Row :=
  mkRow (VStr "r7") [VStr "1"; VStr "True"; VStr "nan"].

(** The table that [snapshot_records] writes for stream data [new]:
    line 196 with a stored snapshot, the stream data itself without. *)
Definition persisted (snapshot : option DataFrame) (new : DataFrame)
    (pk : PyPk) : exn + DataFrame :=
  match snapshot with
  | Some old => drop_duplicates (labels_of pk) keep_last (concat old new)
  | None => inr new
  end.

(** A frame with one more column [c], filled by [f]. *)
Definition with_column (c : string) (f : Row → value) (d : DataFrame)
    : DataFrame :=
  mkDF (columns d ++ [c])
    (map (λ r, mkRow (label r) (cells r ++ [f r])) (rows d)).

(** The batch without the rows that repeat an earlier primary key; the
    whole batch when [pk] is empty. *)
Definition unique_rows (pk : PyPk) (d : DataFrame) : DataFrame :=
  if truthy pk
  then mkDF (columns d)
         (dedup_first (pk_value (labels_of pk) (columns d)) (rows d))
  else d.

(** The (pk, hash) projection of a frame under the digest in use. *)
Definition hash_lines (cs : list string) (d : DataFrame)
    : list (list value) :=
  map (λ r, pk_value cs (columns d) r ++ [VStr (get_row_hash r)]) (rows d).

(** Two streams in one snapshot directory: the hash snapshot of "s" and
    the one of "t". *)
Definition two_streams_world : World :=
  mkWorld [scenario_batch]
    (<["out/t.hash.snapshot.csv" := stored_1_ha]>
       {["out/s.hash.snapshot.csv" := scenario_snapshot]}) None.

(** A batch without the column "id". *)
Definition batch_without_id : DataFrame :=
  mkDF ["name"; "val"] [mkRow (VInt 0) [VStr "A"; VInt 1]].

Definition without_id_world : World := mkWorld [batch_without_id] ∅ None.

(** A folder of extracted files: two CSV files, a parquet file of the
    entity "A", a text file and a sub-folder whose name ends in ".csv". *)
Definition sync_output : OS :=
  mkOS (λ p, bool_decide (p = "in"))
       (λ _, ["B-2.csv"; "A-1.csv"; "A-2.parquet"; "notes.txt"; "sub.csv"])
       (λ p, negb (bool_decide (p = "in/sub.csv"))).

Definition sync_output_world : World :=
  mkWorld []
    (<["in/B-2.csv" := stored_1_ha]> {["in/A-1.csv" := scenario_snapshot]})
    None.

(** A catalog with one stream, "invoices". *)
Definition invoices_properties : list (string * py.json) :=
  [("id", py.JDict [("type", py.JList [py.JStr "null"; py.JStr "integer"])]);
   ("amount", py.JDict [("type", py.JList [py.JStr "number"; py.JStr "null"])]);
   ("created", py.JDict [("type", py.JList [py.JStr "string"]);
                         ("format", py.JStr "date-time")])].

Definition invoices_streams : list py.json :=
  [py.JDict [("stream", py.JStr "invoices");
             ("schema", py.JDict [("properties",
                                   py.JDict invoices_properties)])]].

Definition invoices_catalog : list (string * py.json) :=
  [("streams", py.JList invoices_streams)].

Definition invoices_file : CsvFile := mkCsv ["id"; "amount"; "created"] [].

(** ** Reasoning about runs *)

(** [wp m w Q]: the result and the final world of [m] from [w] satisfy
    [Q]. *)
Definition wp {A} (m : M A) (w : World) (Q : exn + A → World → Prop)
    : Prop :=
  Q (m w).1 (m w).2.

Lemma wp_ret {A} (a : A) w Q : Q (inr a) w → wp (ret a) w Q.
Proof. done. Qed.

Lemma wp_raise {A} e w (Q : exn + A → World → Prop) :
  Q (inl e) w → wp (raise e) w Q.
Proof. done. Qed.

Lemma wp_bind {A B} (m : M A) (f : A → M B) w Q :
  wp m w (λ r w', match r with
                  | inr a => wp (f a) w' Q
                  | inl e => Q (inl e) w'
                  end) →
  wp (bind m f) w Q.
Proof. unfold wp, bind. by destruct (m w) as [[e|a] w']. Qed.

Lemma wp_lift {A} (r : exn + A) w Q :
  (∀ e, r = inl e → Q (inl e) w) →
  (∀ a, r = inr a → Q (inr a) w) →
  wp (lift r) w Q.
Proof. destruct r; unfold wp; simpl; auto. Qed.

Lemma wp_mono {A} (m : M A) w (Q Q' : exn + A → World → Prop) :
  wp m w Q → (∀ r w', Q r w' → Q' r w') → wp m w Q'.
Proof. unfold wp. auto. Qed.

Lemma wp_run {A} (m : M A) w r w' :
  wp m w (λ r0 w0, r0 = r ∧ w0 = w') → m w = (r, w').
Proof. unfold wp. destruct (m w). simpl. by intros [-> ->]. Qed.

Lemma wp_alloc d w Q :
  Q (inr (length (heap w))) (push d w) → wp (alloc d) w Q.
Proof. done. Qed.

Lemma wp_load l w Q : Q (inr (heap w !!! l)) w → wp (load l) w Q.
Proof. done. Qed.

Lemma wp_store l d w Q : Q (inr ()) (poke l d w) → wp (store l d) w Q.
Proof. done. Qed.

Lemma wp_isfile path w Q :
  Q (inr (bool_decide (is_Some (files w !! path)))) w →
  wp (isfile path) w Q.
Proof. done. Qed.

Lemma wp_read_csv path w Q :
  (files w !! path = None → Q (inl FileNotFoundError) w) →
  (∀ f, files w !! path = Some f → Q (inr (frame_of_csv f)) w) →
  wp (read_csv path) w Q.
Proof.
  unfold wp, read_csv. destruct (files w !! path); simpl; auto.
Qed.

(** *** [read_snapshots] and [snapshot_records] *)

Lemma read_snapshots_run stream snapshot_dir w :
  read_snapshots stream snapshot_dir w =
    (inr (frame_of_csv <$> files w !! snapshot_path snapshot_dir stream), w).
Proof.
  unfold read_snapshots, bind, isfile, read_csv.
  destruct (files w !! snapshot_path snapshot_dir stream) as [f|] eqn:Hf.
  - rewrite bool_decide_eq_true_2 by eauto. by rewrite Hf.
  - rewrite bool_decide_eq_false_2; [done|]. by intros [? ?].
Qed.

(** C5.  [get_row_hash] depends on a row only through the strings its
    cells coerce to, in column order: two rows, whatever their index
    labels, cell types or origin, whose cells coerce to the same sequence
    of strings have the same hash. *)
Theorem get_row_hash_deterministic (r1 r2 : Row) :
  map astype_str (cells r1) = map astype_str (cells r2) →
  get_row_hash r1 = get_row_hash r2.
Proof. unfold get_row_hash. by intros ->. Qed.

(** C7.  Without stream data ([None]) [snapshot_records] returns the
    stored snapshot when [just_new] is false and [None] when it is true;
    without a stored snapshot it returns [None] either way.  Nothing is
    merged and nothing is written: the world is unchanged. *)
Theorem snapshot_records_without_data stream snapshot_dir pk just_new w :
  snapshot_records None stream snapshot_dir pk just_new w =
    (inr (if just_new then None
          else frame_of_csv <$>
                 files w !! snapshot_path snapshot_dir stream), w).
Proof.
  unfold snapshot_records, bind. rewrite read_snapshots_run. simpl.
  by destruct just_new.
Qed.

(** *** Columns and keys *)

Lemma index_of_Some c cols i :
  index_of c cols = Some i → cols !! i = Some c.
Proof.
  revert i. induction cols as [|c' cols IH]; intros i; simpl; [done|].
  case_decide; [by intros [= <-]; subst|].
  destruct (index_of c cols) as [j|]; [|done].
  intros [= <-]. by apply IH.
Qed.

Lemma index_of_None c cols : index_of c cols = None ↔ c ∉ cols.
Proof.
  induction cols as [|c' cols IH]; simpl.
  - split; [intros _; apply not_elem_of_nil|done].
  - case_decide; subst.
    + split; [done|]. intros []. left.
    + rewrite not_elem_of_cons, <- IH.
      destruct (index_of c cols); simpl; split; try done.
      by intros [_ ?].
Qed.

Lemma index_of_elem c cols : c ∈ cols → is_Some (index_of c cols).
Proof.
  intros Hc. destruct (index_of c cols) eqn:E; [eauto|].
  by apply index_of_None in E.
Qed.

Lemma index_of_app_l c cols more :
  c ∈ cols → index_of c (cols ++ more) = index_of c cols.
Proof.
  induction cols as [|c' cols IH]; simpl.
  - by intros ?%elem_of_nil.
  - case_decide; [done|]. intros [?|?]%elem_of_cons; [done|].
    by rewrite IH.
Qed.

Lemma index_of_app_r c cols :
  c ∉ cols → index_of c (cols ++ [c]) = Some (length cols).
Proof.
  induction cols as [|c' cols IH]; simpl.
  - by rewrite decide_True.
  - intros [? ?]%not_elem_of_cons. rewrite decide_False by done.
    by rewrite IH.
Qed.

Lemma indices_Some cs cols :
  cs ⊆ cols → is_Some (indices cs cols).
Proof.
  intros Hcs. unfold indices. apply mapM_is_Some.
  apply Forall_forall. intros c Hc. by apply index_of_elem, Hcs.
Qed.

Lemma indices_subseteq cs cols ix :
  indices cs cols = Some ix → cs ⊆ cols.
Proof.
  unfold indices. intros Hix c Hc.
  assert (is_Some (index_of c cols)) as [i Hi].
  { assert (is_Some (mapM (λ c, index_of c cols) cs)) as H by eauto.
    rewrite mapM_is_Some, Forall_forall in H. by apply H. }
  apply index_of_Some in Hi. by eapply list_elem_of_lookup_2.
Qed.

Lemma indices_nil cs cols : indices cs cols = Some [] → cs = [].
Proof.
  unfold indices. intros H%length_mapM. by destruct cs.
Qed.

Lemma key_of_pk_value cs cols ix r :
  indices cs cols = Some ix → key_of ix r = pk_value cs cols r.
Proof.
  unfold indices, key_of, pk_value, at_col. revert ix.
  induction cs as [|c cs IH]; intros ix; simpl.
  - by intros [= <-].
  - destruct (index_of c cols) as [i|]; simpl; [|done].
    destruct (mapM _ cs) as [ix'|]; simpl; [|done].
    intros [= <-]. simpl. f_equal. by apply IH.
Qed.

(** *** Duplicate removal *)

Lemma filter_none {A} (P : A → Prop) `{∀ x, Decision (P x)} (l : list A) :
  (∀ x, x ∈ l → ¬ P x) → filter P l = [].
Proof.
  induction l as [|x l IH]; [done|]. intros Hl.
  rewrite filter_cons_False by (apply Hl; left).
  apply IH. intros y Hy. apply Hl. by right.
Qed.

Lemma dedup_first_filter {K} `{EqDecision K} (key : Row → K) k rs :
  filter (λ r, key r = k) (dedup_first key rs) =
  take 1 (filter (λ r, key r = k) rs).
Proof.
  induction rs as [|r rs IH]; [done|]. simpl.
  destruct (decide (key r = k)) as [Hk|Hk].
  - rewrite !filter_cons_True by done. simpl. f_equal.
    rewrite list_filter_filter. apply filter_none.
    intros x _ [? ?]. congruence.
  - rewrite !filter_cons_False by done.
    rewrite list_filter_filter_l; [done|]. congruence.
Qed.

Lemma dedup_last_filter {K} `{EqDecision K} (key : Row → K) k rs :
  filter (λ r, key r = k) (dedup_last key rs) =
  option_list (last (filter (λ r, key r = k) rs)).
Proof.
  induction rs as [|r rs IH]; [done|]. simpl.
  destruct (decide (key r ∈ map key rs)) as [Hin|Hin].
  - rewrite IH. destruct (decide (key r = k)) as [Hk|Hk].
    + rewrite (filter_cons_True _ r) by done.
      destruct (filter (λ r0, key r0 = k) rs) as [|r' l] eqn:E; [|done].
      exfalso. apply list_elem_of_fmap in Hin as (r' & Hr' & Hrs).
      assert (r' ∈ filter (λ r0, key r0 = k) rs) as Hf
        by (apply list_elem_of_filter; split; congruence).
      rewrite E in Hf. by apply elem_of_nil in Hf.
    + by rewrite (filter_cons_False _ r).
  - destruct (decide (key r = k)) as [Hk|Hk].
    + rewrite !filter_cons_True by done. rewrite IH.
      rewrite (filter_none (λ r0, key r0 = k) rs); [done|].
      intros x Hx Hkx. apply Hin, list_elem_of_fmap.
      exists x. split; [congruence|done].
    + by rewrite !filter_cons_False.
Qed.

Lemma dedup_first_sublist {K} `{EqDecision K} (key : Row → K) rs :
  dedup_first key rs ⊆ rs.
Proof.
  induction rs as [|r rs IH]; [done|]. simpl.
  intros x [->|Hx]%elem_of_cons; [left|right].
  apply IH. by apply list_elem_of_filter in Hx as [_ ?].
Qed.

Lemma dedup_last_app {K} `{EqDecision K} (key : Row → K) l1 l2 :
  dedup_last key (l1 ++ l2) =
  filter (λ r, key r ∉ map key l2) (dedup_last key l1) ++ dedup_last key l2.
Proof.
  induction l1 as [|r l1 IH]; [done|]. simpl.
  rewrite map_app. destruct (decide (key r ∈ map key l1)) as [H1|H1].
  - rewrite decide_True by (apply elem_of_app; by left). done.
  - destruct (decide (key r ∈ map key l2)) as [H2|H2].
    + rewrite decide_True by (apply elem_of_app; by right).
      by rewrite filter_cons_False by (by intros ?).
    + rewrite decide_False by (by intros [?|?]%elem_of_app).
      rewrite filter_cons_True by done. simpl. by rewrite IH.
Qed.

Lemma dedup_last_map {K} `{EqDecision K} (key : Row → K) (g : Row → Row) rs :
  dedup_last key (map g rs) = map g (dedup_last (λ r, key (g r)) rs).
Proof.
  induction rs as [|r rs IH]; [done|]. simpl. rewrite map_map.
  case_decide; by rewrite IH.
Qed.

Lemma dedup_last_sublist_of {K} `{EqDecision K} (key : Row → K) rs :
  dedup_last key rs `sublist_of` rs.
Proof.
  induction rs as [|r rs IH]; [done|]. simpl. case_decide.
  - by apply sublist_cons.
  - by apply sublist_skip.
Qed.

Lemma dedup_last_sublist {K} `{EqDecision K} (key : Row → K) rs :
  dedup_last key rs ⊆ rs.
Proof.
  induction rs as [|r rs IH]; [done|]. simpl. case_decide.
  - intros x Hx. right. by apply IH.
  - intros x [->|Hx]%elem_of_cons; [left|right]. by apply IH.
Qed.


Lemma drop_duplicates_run subset k d ix :
  subset ≠ [] →
  indices subset (columns d) = Some ix →
  drop_duplicates subset k d =
    inr (mkDF (columns d)
           (match k with
            | keep_first => dedup_first (key_of ix) (rows d)
            | keep_last => dedup_last (key_of ix) (rows d)
            end)).
Proof.
  intros Hne Hix. unfold drop_duplicates, empty.
  destruct d as [cols rs]; simpl in *.
  destruct rs as [|r rs].
  { simpl. by destruct k. }
  rewrite (bool_decide_eq_false_2 (r :: rs = [])) by done.
  destruct cols as [|c cols].
  { destruct subset as [|c cs]; [done|].
    apply indices_subseteq in Hix. exfalso.
    apply (not_elem_of_nil c), Hix. left. }
  rewrite bool_decide_eq_false_2 by done. simpl. rewrite Hix.
  destruct ix; [by apply indices_nil in Hix|done].
Qed.

(** *** Rules for the methods on references *)

Lemma wp_returns {A} (m : M A) w (P : A → World → Prop) :
  wp m w (λ r w', ∃ a, r = inr a ∧ P a w') →
  ∃ a w', m w = (inr a, w') ∧ P a w'.
Proof.
  unfold wp. destruct (m w) as [r w']. simpl. intros (a & -> & HP). eauto.
Qed.

Lemma wp_df_new op l w Q :
  (∀ e, op (heap w !!! l) = inl e → Q (inl e) w) →
  (∀ d', op (heap w !!! l) = inr d' →
         Q (inr (length (heap w))) (push d' w)) →
  wp (df_new op l) w Q.
Proof.
  intros He Hd. unfold df_new.
  apply wp_bind, wp_load, wp_bind, wp_lift; [done|].
  intros d' ?. by apply wp_alloc, Hd.
Qed.

Lemma wp_df_new2 op l r w Q :
  (∀ e, op (heap w !!! l) (heap w !!! r) = inl e → Q (inl e) w) →
  (∀ d', op (heap w !!! l) (heap w !!! r) = inr d' →
         Q (inr (length (heap w))) (push d' w)) →
  wp (df_new2 op l r) w Q.
Proof.
  intros He Hd. unfold df_new2.
  apply wp_bind, wp_load, wp_bind, wp_load, wp_bind, wp_lift; [done|].
  intros d' ?. by apply wp_alloc, Hd.
Qed.

Lemma wp_df_copy l w Q :
  Q (inr (length (heap w))) (push (heap w !!! l) w) → wp (df_copy l) w Q.
Proof. intros HQ. apply wp_df_new; [done|]. by intros d' [= <-]. Qed.

Lemma wp_df_apply f l w Q :
  Q (inr (map f (rows (heap w !!! l)))) w → wp (df_apply f l) w Q.
Proof. intros HQ. unfold df_apply. by apply wp_bind, wp_load, wp_ret. Qed.

Lemma wp_df_setitem l c vals w Q :
  Q (inr ()) (poke l (setitem c vals (heap w !!! l)) w) →
  wp (df_setitem l c vals) w Q.
Proof. intros HQ. unfold df_setitem. by apply wp_bind, wp_load, wp_store. Qed.

Lemma wp_to_csv d path w Q :
  (∀ f, disk_fault w = Some f → Q (inl (fault_exn f)) (after_fault f path w)) →
  (disk_fault w = None →
   Q (inr ()) (put_file path (mkCsv (columns d) (map cells (rows d))) w)) →
  wp (to_csv d path) w Q.
Proof.
  intros Hfail Hok. unfold wp, to_csv.
  destruct (disk_fault w) as [f|] eqn:Hf; simpl.
  - by apply Hfail.
  - by apply Hok.
Qed.

(** *** Objects after an allocation *)

Lemma heap_push_new d w : heap (push d w) !!! length (heap w) = d.
Proof.
  simpl. apply list_lookup_total_correct.
  by rewrite lookup_app_r, Nat.sub_diag.
Qed.

Lemma heap_push_new_lookup d w :
  heap (push d w) !! length (heap w) = Some d.
Proof. simpl. by rewrite lookup_app_r, Nat.sub_diag. Qed.

Lemma heap_push_old d w l :
  (l < length (heap w))%nat → heap (push d w) !!! l = heap w !!! l.
Proof. intros Hl. simpl. by rewrite lookup_total_app_l. Qed.

Lemma heap_poke_same l d w :
  (l < length (heap w))%nat → heap (poke l d w) !!! l = d.
Proof.
  intros Hl. simpl. apply list_lookup_total_correct.
  by apply list_lookup_insert_eq.
Qed.

Lemma length_heap_push d w : length (heap (push d w)) = S (length (heap w)).
Proof. simpl. rewrite length_app. simpl. lia. Qed.

Lemma length_heap_poke l d w : length (heap (poke l d w)) = length (heap w).
Proof. simpl. apply length_insert. Qed.

(** C6.  With a non-empty [pk] whose columns the batch has, the frame
    that [drop_redundant] hashes and filters (lines 259-263) has the
    columns of the batch and, for every primary-key value, at most one row
    with that value: the first row of the batch that has it. *)
Theorem drop_redundant_unique_keeps_first df pk w d :
  heap w !! df = Some d →
  truthy pk = true →
  labels_of pk ⊆ columns d →
  ∃ out w',
    drop_redundant_unique df pk w = (inr out, w') ∧
    ∃ d', heap w' !! out = Some d' ∧
      columns d' = columns d ∧
      ∀ k, filter (λ r, pk_value (labels_of pk) (columns d) r = k) (rows d') =
           take 1 (filter (λ r, pk_value (labels_of pk) (columns d) r = k)
                     (rows d)).
Proof.
  intros Hd Hpk Hcols.
  destruct (indices_Some _ _ Hcols) as [ix Hix].
  assert (labels_of pk ≠ []) as Hne.
  { destruct pk; simpl in *; [done|]. by apply bool_decide_eq_true in Hpk. }
  apply wp_returns. unfold drop_redundant_unique.
  apply wp_bind, wp_df_copy. rewrite Hpk.
  rewrite (list_lookup_total_correct _ _ _ Hd).
  apply wp_df_new; rewrite heap_push_new,
    (drop_duplicates_run _ keep_first _ _ Hne Hix); [done|].
  intros d' [= <-]. eexists. split; [done|].
  eexists. split; [apply heap_push_new_lookup|]. split; [done|].
  intros k. simpl.
  assert (∀ r, pk_value (labels_of pk) (columns d) r = k ↔ key_of ix r = k)
    as Hkey by (intros r; by rewrite (key_of_pk_value _ _ _ r Hix)).
  rewrite !(list_filter_iff _ _ _ Hkey). apply dedup_first_filter.
Qed.

(** *** Concatenation *)

Lemma filter_map {A B} (f : A → B) (P : B → Prop) `{∀ y, Decision (P y)}
    (l : list A) :
  filter P (map f l) = map f (filter (λ x, P (f x)) l).
Proof.
  induction l as [|x l IH]; [done|]. simpl.
  destruct (decide (P (f x))).
  - rewrite !filter_cons_True by done. simpl. by rewrite IH.
  - by rewrite !filter_cons_False.
Qed.

Lemma at_col_reindex cols from c r :
  c ∈ cols → at_col cols c (reindex_row cols from r) = at_col from c r.
Proof.
  intros [i Hi]%index_of_elem. unfold at_col at 1. rewrite Hi.
  apply index_of_Some in Hi. unfold cell, reindex_row. simpl.
  by rewrite list_lookup_fmap, Hi.
Qed.

Lemma pk_value_reindex cs cols from r :
  cs ⊆ cols →
  pk_value cs cols (reindex_row cols from r) = pk_value cs from r.
Proof.
  intros Hcs. unfold pk_value. apply map_ext_in. intros c Hc.
  apply at_col_reindex, Hcs. by apply list_elem_of_In.
Qed.

Lemma columns_concat_r a b : columns b ⊆ columns (concat a b).
Proof.
  intros c Hc. simpl. apply elem_of_app.
  destruct (decide (c ∈ columns a)); [by left|right].
  by apply list_elem_of_filter.
Qed.

Lemma rows_concat a b :
  rows (concat a b) =
    map (reindex_row (columns (concat a b)) (columns a)) (rows a) ++
    map (reindex_row (columns (concat a b)) (columns b)) (rows b).
Proof. done. Qed.

(** C3.  With a stored snapshot and stream data, [snapshot_records]
    concatenates stored-then-new and keeps the last row of every
    primary-key value; the result is written to the snapshot file and, when
    [just_new] is false, returned.  For every primary-key value [k] that
    the stream data has (in particular one that the stored snapshot has
    too) the merged table has exactly one row with that value: the last
    incoming row that has it, with the incoming row's value in every
    column of the stream data.  A value that the stream data does not have
    keeps its last stored row, and only that one.  The rows that stay are
    in the order of the concatenation: stored rows first, in their order,
    then incoming rows, in theirs. *)
Theorem snapshot_records_new_wins new stream snapshot_dir pk just_new w f k :
  files w !! snapshot_path snapshot_dir stream = Some f →
  disk_fault w = None →
  labels_of pk ≠ [] →
  labels_of pk ⊆ columns new →
  k ∈ map (pk_value (labels_of pk) (columns new)) (rows new) →
  ∃ merged_data r,
    snapshot_records (Some new) stream snapshot_dir pk just_new w =
      (inr (Some (if just_new then new else merged_data)),
       put_file (snapshot_path snapshot_dir stream)
         (mkCsv (columns merged_data) (map cells (rows merged_data))) w) ∧
    columns merged_data = columns (concat (frame_of_csv f) new) ∧
    last (filter (λ r, pk_value (labels_of pk) (columns new) r = k)
            (rows new)) = Some r ∧
    filter (λ r', pk_value (labels_of pk) (columns merged_data) r' = k)
      (rows merged_data) =
      [reindex_row (columns merged_data) (columns new) r] ∧
    (∀ c, c ∈ columns new →
          at_col (columns merged_data) c
            (reindex_row (columns merged_data) (columns new) r) =
          at_col (columns new) c r) ∧
    (∀ k', k' ∉ map (pk_value (labels_of pk) (columns new)) (rows new) →
           filter (λ r', pk_value (labels_of pk) (columns merged_data) r' = k')
             (rows merged_data) =
           option_list
             (reindex_row (columns merged_data) (header f) <$>
              last (filter (λ r0, pk_value (labels_of pk) (header f) r0 = k')
                      (rows (frame_of_csv f))))) ∧
    ∃ kept_old kept_new,
      rows merged_data =
        map (reindex_row (columns merged_data) (header f)) kept_old ++
        map (reindex_row (columns merged_data) (columns new)) kept_new ∧
      kept_old `sublist_of` rows (frame_of_csv f) ∧
      kept_new `sublist_of` rows new.
Proof.
  intros Hf Hfault Hne Hcs Hk.
  set (old := frame_of_csv f).
  assert (labels_of pk ⊆ columns (concat old new)) as Hm
    by (etrans; [done|apply columns_concat_r]).
  destruct (indices_Some _ _ Hm) as [ix Hix].
  destruct (last (filter (λ r, pk_value (labels_of pk) (columns new) r = k)
                    (rows new))) as [r|] eqn:Hlast; last first.
  { exfalso. apply last_None in Hlast.
    apply list_elem_of_fmap in Hk as (r & -> & Hr).
    assert (r ∈ filter (λ r0, pk_value (labels_of pk) (columns new) r0 =
                              pk_value (labels_of pk) (columns new) r)
                  (rows new)) as Hin by (by apply list_elem_of_filter).
    rewrite Hlast in Hin. by apply elem_of_nil in Hin. }
  assert (∀ k' r',
            pk_value (labels_of pk) (columns (concat old new)) r' = k'
            ↔ key_of ix r' = k') as Hkey
    by (intros k' r'; by rewrite (key_of_pk_value _ _ _ r' Hix)).
  eexists (mkDF (columns (concat old new))
             (dedup_last (key_of ix) (rows (concat old new)))), r.
  split; [|split; [done|split; [done|split; [|split; [|split]]]]].
  - unfold snapshot_records, bind. rewrite read_snapshots_run, Hf. simpl.
    fold old. rewrite (drop_duplicates_run _ keep_last _ _ Hne Hix). simpl.
    unfold to_csv. rewrite Hfault. simpl. by destruct just_new.
  - cbn [columns rows].
    rewrite (list_filter_iff _ _ _ (Hkey k)), dedup_last_filter.
    rewrite <- (list_filter_iff _ _ _ (Hkey k)).
    rewrite rows_concat, filter_app, last_app.
    rewrite !filter_map.
    rewrite (list_filter_iff _
               (λ r0, pk_value (labels_of pk) (columns new) r0 = k)
               (rows new)) by (intros r'; by rewrite pk_value_reindex).
    by rewrite (fmap_last _ (filter _ (rows new))), Hlast.
  - intros c Hc. by apply at_col_reindex, columns_concat_r.
  - intros k' Hk'. cbn [columns rows].
    rewrite (list_filter_iff _ _ _ (Hkey k')), dedup_last_filter.
    rewrite <- (list_filter_iff _ _ _ (Hkey k')).
    rewrite rows_concat, filter_app, last_app.
    rewrite !filter_map.
    rewrite (filter_none _ (rows new)); last first.
    { intros r' Hr'. rewrite pk_value_reindex by done. intros <-.
      apply Hk', list_elem_of_fmap. eauto. }
    simpl.
    rewrite (list_filter_iff _
               (λ r0, pk_value (labels_of pk) (header f) r0 = k')
               (rows old)) by (intros r'; by rewrite pk_value_reindex).
    by rewrite (fmap_last _ (filter _ (rows old))).
  - cbn [columns rows]. rewrite rows_concat, dedup_last_app.
    rewrite !dedup_last_map, filter_map.
    eexists _, _. split; [done|]. split.
    + etrans; [apply sublist_filter|apply dedup_last_sublist_of].
    + apply dedup_last_sublist_of.
Qed.

(** C8, as stated, fails: the write goes to the final path.  With the
    stored snapshot (1, ha) and a write that fails when only the header has
    reached the file, [snapshot_records] raises OSError and the file no
    longer holds the stored snapshot. *)
Lemma failed_write_loses_snapshot :
  (snapshot_records (Some incoming_1_hb) "s" "out" (PkStr "pk") false
     failing_disk_world).1 = inl OSError ∧
  files (snapshot_records (Some incoming_1_hb) "s" "out" (PkStr "pk") false
           failing_disk_world).2 !! "out/s.snapshot.csv" ≠
  files failing_disk_world !! "out/s.snapshot.csv".
Proof. vm_compute. split; [done|]. by intros [=]. Qed.

(** *** The hash column *)

Lemma zip_with_map_r {A B C} (g : A → B → C) (f : A → B) (l : list A) :
  zip_with g l (map f l) = map (λ x, g x (f x)) l.
Proof. induction l as [|x l IH]; [done|]. simpl. by rewrite IH. Qed.

Lemma delete_snoc {A} (l : list A) (x : A) : delete (length l) (l ++ [x]) = l.
Proof. induction l as [|y l IH]; [done|]. simpl. by rewrite IH. Qed.

Lemma setitem_append c f d :
  c ∉ columns d → setitem c (map f (rows d)) d = with_column c f d.
Proof.
  intros Hc%index_of_None. unfold setitem, with_column. rewrite Hc.
  by rewrite zip_with_map_r.
Qed.

Lemma getitem_pk_value cs d :
  cs ⊆ columns d →
  getitem cs d =
    inr (mkDF cs (map (λ r, mkRow (label r) (pk_value cs (columns d) r))
                    (rows d))).
Proof.
  intros [ix Hix]%indices_Some. unfold getitem. rewrite Hix.
  do 2 f_equal. apply map_ext. intros r.
  by rewrite (key_of_pk_value _ _ _ r Hix).
Qed.

Lemma at_col_append_old cols c c' lb cs v :
  c' ∈ cols → length cs = length cols →
  at_col (cols ++ [c]) c' (mkRow lb (cs ++ [v])) = at_col cols c' (mkRow lb cs).
Proof.
  intros Hc' Hlen. unfold at_col. rewrite index_of_app_l by done.
  destruct (index_of c' cols) as [i|] eqn:Hi; [|done].
  apply index_of_Some, lookup_lt_Some in Hi.
  unfold cell. simpl. by rewrite lookup_app_l by lia.
Qed.

Lemma at_col_append_new cols c lb cs v :
  c ∉ cols → length cs = length cols →
  at_col (cols ++ [c]) c (mkRow lb (cs ++ [v])) = v.
Proof.
  intros Hc Hlen. unfold at_col. rewrite index_of_app_r by done.
  unfold cell. simpl. by rewrite <- Hlen, lookup_app_r, Nat.sub_diag.
Qed.

Lemma at_col_label cols c lb r : at_col cols c (mkRow lb (cells r)) = at_col cols c r.
Proof. done. Qed.

Lemma getitem_with_column cs c f d :
  wf d → cs ⊆ columns d → c ∉ columns d →
  getitem (cs ++ [c]) (with_column c f d) =
    inr (mkDF (cs ++ [c])
           (map (λ r, mkRow (label r) (pk_value cs (columns d) r ++ [f r]))
              (rows d))).
Proof.
  intros Hwf Hcs Hc. rewrite getitem_pk_value; last first.
  { simpl. intros x [?|Hx%list_elem_of_singleton]%elem_of_app;
      apply elem_of_app; [left; by apply Hcs|right; subst; left]. }
  f_equal. f_equal. simpl. rewrite map_map. apply map_ext_Forall.
  eapply Forall_impl; [exact Hwf|]. intros r Hlen. simpl. f_equal.
  unfold pk_value. rewrite map_app. simpl. f_equal.
  - apply map_ext_in. intros c' Hc'%list_elem_of_In.
    rewrite at_col_append_old by auto. apply at_col_label.
  - by rewrite at_col_append_new.
Qed.

Lemma drop_with_column c f d :
  wf d → c ∉ columns d → drop c (with_column c f d) = inr d.
Proof.
  intros Hwf Hc. unfold drop, with_column. simpl.
  rewrite index_of_app_r by done. rewrite delete_snoc, map_map.
  destruct d as [cols rs]. simpl in *. do 2 f_equal.
  rewrite <- (map_id rs) at 2. apply map_ext_Forall.
  eapply Forall_impl; [exact Hwf|]. intros [lb cs] Hlen. simpl in *.
  by rewrite <- Hlen, delete_snoc.
Qed.

Lemma drop_duplicates_wf subset k d d' :
  wf d → drop_duplicates subset k d = inr d' → wf d'.
Proof.
  unfold drop_duplicates. intros Hwf.
  destruct (empty d); [by intros [= <-]|].
  destruct (indices subset (columns d)) as [[|i ix]|]; [done| |done].
  intros [= <-]. unfold wf in *. simpl. rewrite Forall_forall in *.
  intros r Hr. apply Hwf.
  destruct k; [by eapply dedup_first_sublist|by eapply dedup_last_sublist].
Qed.

Lemma drop_duplicates_columns subset k d d' :
  drop_duplicates subset k d = inr d' → columns d' = columns d.
Proof.
  unfold drop_duplicates.
  destruct (empty d); [by intros [= <-]|].
  destruct (indices subset (columns d)) as [[|i ix]|]; [done| |done].
  by intros [= <-].
Qed.

(** *** Paths *)

Lemma append_assoc (a b c : string) : (a +:+ b) +:+ c = a +:+ (b +:+ c).
Proof.
  induction a as [|x a IH]; [done|].
  change (String x ((a +:+ b) +:+ c) = String x (a +:+ (b +:+ c))).
  by rewrite IH.
Qed.

Lemma hash_snapshot_path output_dir name :
  snapshot_path output_dir (name +:+ ".hash") =
  output_dir +:+ "/" +:+ name +:+ ".hash.snapshot.csv".
Proof. unfold snapshot_path. by rewrite (append_assoc name). Qed.

(** *** The first run of a stream *)

Lemma wp_of_run {A} (m : M A) w r w' (Q : exn + A → World → Prop) :
  m w = (r, w') → Q r w' → wp m w Q.
Proof. unfold wp. by intros ->. Qed.

Lemma snapshot_records_first_run new stream snapshot_dir pk just_new w :
  files w !! snapshot_path snapshot_dir stream = None →
  disk_fault w = None →
  snapshot_records (Some new) stream snapshot_dir pk just_new w =
    (inr (Some new),
     put_file (snapshot_path snapshot_dir stream)
       (mkCsv (columns new) (map cells (rows new))) w).
Proof.
  intros Hf Hfault. unfold snapshot_records, bind.
  rewrite read_snapshots_run, Hf. simpl. unfold to_csv. by rewrite Hfault.
Qed.

Lemma dedup_first_ext {K} `{EqDecision K} (key key' : Row → K) rs :
  (∀ r, key r = key' r) → dedup_first key rs = dedup_first key' rs.
Proof.
  intros Hkey. induction rs as [|r rs IH]; [done|]. simpl.
  rewrite IH. f_equal. apply list_filter_iff. intros r'.
  by rewrite !Hkey.
Qed.

Lemma drop_duplicates_unique_rows pk d :
  truthy pk = true → labels_of pk ⊆ columns d →
  drop_duplicates (labels_of pk) keep_first d = inr (unique_rows pk d).
Proof.
  intros Hpk Hcols. destruct (indices_Some _ _ Hcols) as [ix Hix].
  assert (labels_of pk ≠ []) as Hne.
  { destruct pk; simpl in *; [done|]. by apply bool_decide_eq_true in Hpk. }
  rewrite (drop_duplicates_run _ keep_first _ _ Hne Hix).
  unfold unique_rows. rewrite Hpk. do 2 f_equal.
  apply dedup_first_ext. intros r. by apply key_of_pk_value.
Qed.

(** The copy and the duplicate removal of lines 259-263: the frame bound
    to [df] afterwards is the newest object, the objects that existed
    before are untouched, and so are the files. *)
Lemma drop_redundant_unique_spec df pk w :
  wp (drop_redundant_unique df pk) w (λ r w1,
    files w1 = files w ∧ disk_fault w1 = disk_fault w ∧
    heap w `prefix_of` heap w1 ∧
    match r with
    | inl e =>
        truthy pk = true ∧
        drop_duplicates (labels_of pk) keep_first (heap w !!! df) = inl e
    | inr out =>
        ∃ kept h,
          (if truthy pk
           then drop_duplicates (labels_of pk) keep_first (heap w !!! df)
           else inr (heap w !!! df)) = inr kept ∧
          heap w1 = h ++ [kept] ∧ out = length h ∧ heap w `prefix_of` h
    end).
Proof.
  unfold drop_redundant_unique. apply wp_bind, wp_df_copy.
  destruct (truthy pk).
  - apply wp_df_new; rewrite heap_push_new.
    + intros e He. simpl. repeat split; try done. by apply prefix_app_r.
    + intros kept Hkept. simpl. repeat split; try done.
      { rewrite <- app_assoc. by apply prefix_app_r. }
      exists kept, (heap w ++ [heap w !!! df]).
      repeat split; try done. by apply prefix_app_r.
  - apply wp_ret. simpl. repeat split; try done; [by apply prefix_app_r|].
    by exists (heap w !!! df), (heap w).
Qed.

Lemma unique_rows_wf pk d : wf d → wf (unique_rows pk d).
Proof.
  unfold unique_rows. destruct (truthy pk); [|done].
  unfold wf. simpl. rewrite !Forall_forall. intros Hwf r Hr.
  by eapply Hwf, dedup_first_sublist.
Qed.

Lemma unique_rows_columns pk d : columns (unique_rows pk d) = columns d.
Proof. unfold unique_rows. by destruct (truthy pk). Qed.

(** C4, amended.  Without a hash snapshot file for the stream, with [pk]
    a list of columns of the batch and a batch that has no column named
    "hash", [drop_redundant] returns the batch as it is after the removal
    of repeated primary keys, every remaining row unchanged, and creates
    the snapshot file with exactly one (pk, hash) line per returned row,
    in order. *)
Theorem drop_redundant_first_run df name output_dir l updated_flag w d :
  heap w !! df = Some d →
  wf d →
  l ⊆ columns d →
  "hash" ∉ columns d →
  files w !! (output_dir +:+ "/" +:+ name +:+ ".hash.snapshot.csv") = None →
  disk_fault w = None →
  ∃ out w',
    drop_redundant df name output_dir (PkList l) updated_flag w =
      (inr out, w') ∧
    heap w' !! out = Some (unique_rows (PkList l) d) ∧
    files w' =
      <[output_dir +:+ "/" +:+ name +:+ ".hash.snapshot.csv" :=
          mkCsv (l ++ ["hash"]) (hash_lines l (unique_rows (PkList l) d))]>
        (files w) ∧
    length (hash_lines l (unique_rows (PkList l) d)) =
      length (rows (unique_rows (PkList l) d)).
Proof.
  intros Hd Hwf Hl Hhash Hfile Hfault.
  apply list_lookup_total_correct in Hd as Hdf.
  set (kept := unique_rows (PkList l) d).
  assert (wf kept) as Hwfk by by apply unique_rows_wf.
  assert (columns kept = columns d) as Hck by apply unique_rows_columns.
  apply wp_returns. unfold drop_redundant.
  apply wp_bind. eapply wp_mono; [apply drop_redundant_unique_spec|].
  intros [e|df1] w1 (Hf1 & Hd1 & _ & Hr); cbv beta iota.
  { destruct Hr as [Hpk He]. rewrite Hdf in He.
    by rewrite (drop_duplicates_unique_rows (PkList l)) in He. }
  destruct Hr as (kept' & h & Hkept & Hh & -> & _).
  assert (kept' = kept) as ->.
  { rewrite Hdf in Hkept. unfold kept, unique_rows.
    destruct (truthy (PkList l)) eqn:Hpk; [|congruence].
    rewrite (drop_duplicates_unique_rows (PkList l)) in Hkept by done.
    unfold unique_rows in Hkept. rewrite Hpk in Hkept. congruence. }
  assert (heap w1 !!! length h = kept) as Hk1.
  { rewrite Hh. apply list_lookup_total_correct.
    by rewrite lookup_app_r, Nat.sub_diag. }
  assert (length h < length (heap w1))%nat as Hlt.
  { rewrite Hh, length_app. simpl. lia. }
  apply wp_bind, wp_df_apply. rewrite Hk1.
  apply wp_bind, wp_df_setitem. rewrite Hk1.
  rewrite (setitem_append "hash" (λ row, VStr (get_row_hash row)))
    by by rewrite Hck.
  apply wp_bind. unfold drop_redundant_compare.
  apply wp_bind, wp_isfile. simpl files. rewrite Hf1, Hfile.
  rewrite bool_decide_eq_false_2 by by intros [? ?].
  apply wp_ret, wp_bind, wp_lift; [done|]. intros keys [= <-].
  apply wp_bind, wp_df_new; rewrite heap_poke_same by done;
    rewrite getitem_with_column by (rewrite ?Hck; done); [done|].
  intros sd [= <-].
  apply wp_bind, wp_load. rewrite heap_push_new.
  apply wp_bind. eapply wp_of_run.
  { apply snapshot_records_first_run.
    - rewrite hash_snapshot_path. simpl. by rewrite Hf1.
    - simpl. by rewrite Hd1. }
  rewrite hash_snapshot_path.
  apply wp_bind, wp_df_new; simpl heap;
    rewrite lookup_total_app_l by (by rewrite length_insert);
    rewrite (list_lookup_total_correct _ _ _
               (list_lookup_insert_eq _ _ _ Hlt));
    rewrite drop_with_column by (rewrite ?Hck; done); [done|].
  intros out [= <-]. apply wp_ret.
  eexists. split; [done|]. simpl. split; [|split].
  - by rewrite lookup_app_r, Nat.sub_diag.
  - rewrite Hf1. do 2 f_equal. unfold hash_lines. rewrite map_map.
    by rewrite Hck.
  - unfold hash_lines. by rewrite length_map.
Qed.

(** *** Runs that raise *)

Lemma wp_raises {A} (m : M A) w (P : exn → World → Prop) :
  wp m w (λ r w', ∃ e, r = inl e ∧ P e w') →
  ∃ e w', m w = (inl e, w') ∧ P e w'.
Proof.
  unfold wp. destruct (m w) as [r w']. simpl. intros (e & -> & HP). eauto.
Qed.

(** C10.  With [pk] a plain string and no hash snapshot file for the
    stream, [drop_redundant] always raises and writes nothing.  When the
    string names a column of the batch (or is empty, or the batch has no
    rows, so that line 263 has nothing to refuse) the exception is the
    TypeError of [pk + ["hash"]] at line 286, since only the branch of an
    existing snapshot turns [pk] into a list. *)
Theorem drop_redundant_string_pk_first_run df name output_dir s
    updated_flag w :
  files w !! (output_dir +:+ "/" +:+ name +:+ ".hash.snapshot.csv") = None →
  ∃ e w',
    drop_redundant df name output_dir (PkStr s) updated_flag w = (inl e, w') ∧
    files w' = files w ∧
    (s ∈ columns (heap w !!! df) ∨ s = "" ∨ rows (heap w !!! df) = [] →
     e = TypeError).
Proof.
  intros Hfile. apply wp_raises. unfold drop_redundant.
  apply wp_bind. eapply wp_mono; [apply drop_redundant_unique_spec|].
  intros [e|df1] w1 (Hf1 & Hd1 & _ & Hr); cbv beta iota.
  { destruct Hr as [Hpk He]. exists e. repeat split; try done.
    intros [Hs|[->|Hrows]].
    - rewrite (drop_duplicates_unique_rows (PkStr s)) in He; [done..|].
      simpl. by intros c ->%list_elem_of_singleton.
    - done.
    - unfold drop_duplicates, empty in He. rewrite Hrows in He.
      by rewrite bool_decide_eq_true_2 in He. }
  clear Hr.
  apply wp_bind, wp_df_apply, wp_bind, wp_df_setitem, wp_bind.
  unfold drop_redundant_compare.
  apply wp_bind, wp_isfile. simpl files. rewrite Hf1, Hfile.
  rewrite bool_decide_eq_false_2 by by intros [? ?].
  apply wp_ret, wp_bind, wp_raise. by exists TypeError.
Qed.

(** C1, on the code.  In the scenario of the specification (stored
    snapshot (A, x1); batch (A, 1), (B, 2); pk = ["id"]; default
    [updated_flag]) [drop_redundant] does not return the filtered batch,
    whatever the digest, hence also when the rows hash to x1 and y1: line
    284 reads [updated_pk], which is bound only under
    [updated_flag and pk], and raises UnboundLocalError before the
    snapshot is rewritten. *)
Theorem drop_redundant_scenario_raises :
  (drop_redundant 0%nat "s" "out" (PkList ["id"]) false scenario_world).1 =
    inl UnboundLocalError ∧
  files (drop_redundant 0%nat "s" "out" (PkList ["id"]) false
           scenario_world).2 = files scenario_world.
Proof. by vm_compute. Qed.

(** *** Stepping through a run *)

Ltac wp_step :=
  lazymatch goal with
  | |- wp (bind _ _) _ _ => apply wp_bind
  | |- wp (ret _) _ _ => apply wp_ret
  | |- wp (raise _) _ _ => apply wp_raise
  | |- wp (load _) _ _ => apply wp_load
  | |- wp (alloc _) _ _ => apply wp_alloc
  | |- wp (store _ _) _ _ => apply wp_store
  | |- wp (isfile _) _ _ => apply wp_isfile
  | |- wp (lift _) _ _ => apply wp_lift; intros ? _
  | |- wp (read_csv _) _ _ => apply wp_read_csv; intros
  | |- wp (df_new _ _) _ _ => apply wp_df_new; intros ? _
  | |- wp (df_new2 _ _ _) _ _ => apply wp_df_new2; intros ? _
  | |- wp (df_apply _ _) _ _ => apply wp_df_apply
  | |- wp (df_setitem _ _ _) _ _ => apply wp_df_setitem
  | |- wp (if ?b then _ else _) _ _ => destruct b
  | |- wp (match ?o with Some _ => _ | None => _ end) _ _ => destruct o
  end; cbv beta iota.

Ltac wp_steps :=
  unfold df_read_csv, df_copy, df_drop_duplicates, df_getitem, df_select_eq,
    df_drop, df_merge, df_isin, df_setitem_frame;
  repeat wp_step.

(** With a hash snapshot file and the default [updated_flag], the
    comparison never completes: whatever happens before, line 284 has no
    [updated_pk] to read.  No file is touched. *)
Lemma drop_redundant_compare_raises df name output_dir pk w :
  is_Some (files w !! (output_dir +:+ "/" +:+ name +:+ ".hash.snapshot.csv")) →
  wp (drop_redundant_compare df name output_dir pk false) w (λ r w',
    (∃ e, r = inl e) ∧ files w' = files w ∧ disk_fault w' = disk_fault w).
Proof.
  intros Hf. unfold drop_redundant_compare.
  apply wp_bind, wp_isfile. rewrite bool_decide_eq_true_2 by done.
  simpl andb. wp_steps; simpl; eauto.
Qed.

Lemma drop_redundant_compare_skips df name output_dir pk updated_flag w :
  files w !! (output_dir +:+ "/" +:+ name +:+ ".hash.snapshot.csv") = None →
  drop_redundant_compare df name output_dir pk updated_flag w =
    (inr (df, pk), w).
Proof.
  intros Hf. unfold drop_redundant_compare, bind, isfile. rewrite Hf.
  by rewrite bool_decide_eq_false_2 by by intros [? ?].
Qed.

Lemma snapshot_records_writes new stream snapshot_dir pk just_new w :
  files w !! snapshot_path snapshot_dir stream = None →
  wp (snapshot_records (Some new) stream snapshot_dir pk just_new) w
    (λ r w', (∃ out, r = inr out) →
             is_Some (files w' !! snapshot_path snapshot_dir stream)).
Proof.
  intros Hf. unfold wp, snapshot_records, bind.
  rewrite read_snapshots_run, Hf. simpl. unfold to_csv.
  destruct (disk_fault w); simpl.
  - by intros (out & [=]).
  - by rewrite lookup_insert_eq.
Qed.

(** With a hash snapshot file and the default [updated_flag],
    [drop_redundant] raises and leaves the files as they are. *)
Lemma drop_redundant_existing_raises df name output_dir pk w :
  is_Some (files w !! (output_dir +:+ "/" +:+ name +:+ ".hash.snapshot.csv")) →
  wp (drop_redundant df name output_dir pk false) w (λ r w',
    (∃ e, r = inl e) ∧ files w' = files w).
Proof.
  intros Hf. unfold drop_redundant.
  apply wp_bind. eapply wp_mono; [apply drop_redundant_unique_spec|].
  intros [e|df1] w1 (Hf1 & Hd1 & _ & _); cbv beta iota; [eauto|].
  apply wp_bind, wp_df_apply, wp_bind, wp_df_setitem, wp_bind.
  eapply wp_mono.
  { apply drop_redundant_compare_raises. simpl. by rewrite Hf1. }
  intros r w2 ((e & ->) & Hf2 & _). split; [eauto|].
  by rewrite Hf2.
Qed.

(** A run with the default [updated_flag] that returns has created the
    hash snapshot file. *)
Lemma drop_redundant_returns_snapshot df name output_dir pk w :
  wp (drop_redundant df name output_dir pk false) w (λ r w',
    (∃ out, r = inr out) →
    is_Some (files w' !! (output_dir +:+ "/" +:+ name +:+ ".hash.snapshot.csv"))).
Proof.
  destruct (files w !! (output_dir +:+ "/" +:+ name +:+ ".hash.snapshot.csv"))
    as [f|] eqn:Hf.
  { eapply wp_mono; [apply drop_redundant_existing_raises; by rewrite Hf|].
    intros r w' ((e & ->) & _) (out & [=]). }
  unfold drop_redundant.
  apply wp_bind. eapply wp_mono; [apply drop_redundant_unique_spec|].
  intros [e|df1] w1 (Hf1 & Hd1 & _ & _); cbv beta iota.
  { by intros (out & [=]). }
  apply wp_bind, wp_df_apply, wp_bind, wp_df_setitem, wp_bind.
  eapply wp_of_run.
  { apply drop_redundant_compare_skips. simpl. by rewrite Hf1. }
  apply wp_bind, wp_lift.
  { by intros e _ (out & [=]). }
  intros keys _. apply wp_bind, wp_df_new.
  { by intros e _ (out & [=]). }
  intros sd _. apply wp_bind, wp_load, wp_bind. eapply wp_mono.
  { apply snapshot_records_writes. rewrite hash_snapshot_path.
    simpl. by rewrite Hf1. }
  rewrite hash_snapshot_path.
  intros [e|r] w2 Hw2; [by intros (out & [=])|].
  apply wp_bind, wp_df_new; [by intros e _ (out & [=])|].
  intros d' _. apply wp_ret. intros _. simpl. apply Hw2. eauto.
Qed.

(** C2, on the code.  When a call of [drop_redundant] with the default
    [updated_flag] has returned, the same call again does not return an
    empty frame: it finds the snapshot file of the first call and raises
    (line 284 reads the unbound [updated_pk]); the files stay as the first
    call left them. *)
Theorem drop_redundant_twice_raises df name output_dir pk w out w1 :
  drop_redundant df name output_dir pk false w = (inr out, w1) →
  ∃ e w2,
    drop_redundant df name output_dir pk false w1 = (inl e, w2) ∧
    files w2 = files w1.
Proof.
  intros Hrun.
  pose proof (drop_redundant_returns_snapshot df name output_dir pk w) as H1.
  unfold wp in H1. rewrite Hrun in H1. simpl in H1.
  apply wp_raises. eapply wp_mono.
  { apply drop_redundant_existing_raises, H1. eauto. }
  intros r w2 ((e & ->) & Hf). eauto.
Qed.

(** *** The caller's objects *)

Lemma prefix_insert_ge {A} (l0 l : list A) i x :
  l0 `prefix_of` l → (length l0 ≤ i)%nat → l0 `prefix_of` <[i:=x]> l.
Proof.
  intros [k ->] Hi. rewrite insert_app_r_alt by done. by eexists.
Qed.

Lemma snapshot_records_heap stream_data stream snapshot_dir pk just_new w :
  wp (snapshot_records stream_data stream snapshot_dir pk just_new) w
    (λ _ w', heap w' = heap w).
Proof.
  unfold wp, snapshot_records, bind. rewrite read_snapshots_run.
  unfold lift, to_csv, after_fault, ret, raise.
  repeat (case_match; simplify_eq/=; try done).
Qed.

Lemma drop_redundant_heap_prefix df name output_dir pk updated_flag w :
  wp (drop_redundant df name output_dir pk updated_flag) w
    (λ _ w', heap w `prefix_of` heap w').
Proof.
  unfold drop_redundant.
  apply wp_bind. eapply wp_mono; [apply drop_redundant_unique_spec|].
  intros [e|df1] w1 (_ & _ & Hpre & Hr); cbv beta iota; [done|].
  destruct Hr as (kept & h & _ & Hh & -> & Hwh).
  apply prefix_length in Hwh as Hlen.
  assert (∀ w2 : World, heap w `prefix_of` heap w2 →
            (length (heap w) ≤ length (heap w2))%nat) as Hle
    by (intros w2; apply prefix_length).
  unfold drop_redundant_compare. wp_steps.
  all: try (eapply wp_mono; [apply snapshot_records_heap|];
            intros [?|?] w2 Hw2; cbv beta iota; wp_steps).
  all: simpl; rewrite ?Hw2; simpl;
    repeat first
      [ assumption
      | apply prefix_app_r
      | apply prefix_insert_ge;
        [|rewrite ?length_app, ?length_insert, ?Hh, ?length_app;
          simpl; lia] ].
Qed.

(** C9.  [drop_redundant] works on a copy: the DataFrame object that the
    caller passed holds the same frame when the call has returned or
    raised, whatever the arguments and the stored snapshot; the hash,
    [_merge] and [_updated] columns and the row drops go to objects
    created by the call.  The same holds of every object that existed
    before the call. *)
Theorem drop_redundant_keeps_caller_frame df name output_dir pk updated_flag
    w d :
  heap w !! df = Some d →
  heap (drop_redundant df name output_dir pk updated_flag w).2 !! df =
    Some d ∧
  heap w `prefix_of`
    heap (drop_redundant df name output_dir pk updated_flag w).2.
Proof.
  intros Hd.
  pose proof (drop_redundant_heap_prefix df name output_dir pk updated_flag w)
    as Hpre.
  unfold wp in Hpre. split; [|done].
  by eapply prefix_lookup_Some.
Qed.

(** *** A write that fails *)

Lemma snapshot_records_fault sd stream snapshot_dir pk just_new w f :
  disk_fault w = Some f →
  wp (snapshot_records (Some sd) stream snapshot_dir pk just_new) w
    (λ r w',
       ∃ e, r = inl e ∧
            (files w' = files w ∨
             e = fault_exn f ∧
             files w' =
               files (after_fault f (snapshot_path snapshot_dir stream) w))).
Proof.
  intros Hfault. unfold wp, snapshot_records, bind.
  rewrite read_snapshots_run. unfold lift, to_csv, ret, raise.
  destruct (files w !! snapshot_path snapshot_dir stream) as [f0|]; simpl.
  - destruct (drop_duplicates _ _ _) as [e|merged_data]; simpl; [eauto|].
    rewrite Hfault. simpl. eauto.
  - rewrite Hfault. simpl. eauto.
Qed.

(** C8, amended.  [snapshot_records] writes the snapshot with one [to_csv]
    at its final path and neither stages the write nor handles its failure.
    When there is a table to persist and the write fails, the exception of
    the write reaches the caller and the world is what the failed write
    left: the snapshot file holds what the write left in it, not what was
    stored before, and nothing else has changed.  [drop_redundant] persists
    through [snapshot_records]: when writing fails it never returns, and
    the files are as they were (it raised before the write) or as the failed
    write of the hash snapshot left them. *)
Theorem snapshot_records_failed_write new stream snapshot_dir pk just_new
    df name output_dir pk' updated_flag w f t :
  disk_fault w = Some f →
  persisted (frame_of_csv <$> files w !! snapshot_path snapshot_dir stream)
    new pk = inr t →
  snapshot_records (Some new) stream snapshot_dir pk just_new w =
    (inl (fault_exn f),
     after_fault f (snapshot_path snapshot_dir stream) w) ∧
  ∃ e w',
    drop_redundant df name output_dir pk' updated_flag w = (inl e, w') ∧
    (files w' = files w ∨
     e = fault_exn f ∧
     files w' =
       files (after_fault f
                (output_dir +:+ "/" +:+ name +:+ ".hash.snapshot.csv") w)).
Proof.
  intros Hfault Ht. split.
  - unfold snapshot_records, bind. rewrite read_snapshots_run.
    destruct (files w !! snapshot_path snapshot_dir stream) as [f0|];
      simpl in *.
    + rewrite Ht. simpl. unfold to_csv. by rewrite Hfault.
    + injection Ht as <-. unfold to_csv. by rewrite Hfault.
  - apply wp_raises. rewrite <- hash_snapshot_path.
    unfold drop_redundant.
    apply wp_bind. eapply wp_mono; [apply drop_redundant_unique_spec|].
    intros [e|df1] w1 (Hf1 & Hd1 & _ & _); cbv beta iota; [eauto|].
    unfold drop_redundant_compare. wp_steps.
    all: try (eapply wp_mono;
              [apply (snapshot_records_fault _ _ _ _ _ _ f); simpl;
               by rewrite Hd1|];
              intros [?|?] w2 (ex & Hex & Hw2); cbv beta iota;
              [injection Hex as ->|discriminate Hex]).
    all: simpl; eauto.
    all: eexists; split; [done|].
    all: unfold after_fault in *; destruct (fault_leaves f);
      simpl in Hw2 |- *; rewrite Hf1 in Hw2;
      destruct Hw2 as [Hw2|[-> Hw2]]; eauto.
Qed.

(** *** More on [snapshot_records] *)

Lemma dedup_last_keys {K} `{EqDecision K} (key : Row → K) rs k :
  k ∈ map key (dedup_last key rs) ↔ k ∈ map key rs.
Proof.
  induction rs as [|r rs IH]; [done|]. simpl. case_decide as Hin; simpl.
  - rewrite IH. split; [by right|].
    intros [->|?]%elem_of_cons; done.
  - by rewrite !elem_of_cons, IH.
Qed.

Lemma dedup_last_NoDup {K} `{EqDecision K} (key : Row → K) rs :
  NoDup (map key (dedup_last key rs)).
Proof.
  induction rs as [|r rs IH]; [constructor|]. simpl. case_decide as Hin; [done|].
  simpl. constructor; [|done]. by rewrite dedup_last_keys.
Qed.

Lemma columns_concat_l a b : columns a ⊆ columns (concat a b).
Proof. intros c Hc. simpl. apply elem_of_app. by left. Qed.

(** X1.  The merge of [snapshot_records] (lines 194-199) keeps the snapshot keyed:
    with a stored snapshot that has the [pk] columns, the table written has
    no two rows with the same primary key, and its primary keys are exactly
    those of the stored snapshot and of the stream data: no key is lost and
    none is invented. *)
Theorem snapshot_records_keys new stream snapshot_dir pk just_new w f :
  files w !! snapshot_path snapshot_dir stream = Some f →
  disk_fault w = None →
  labels_of pk ≠ [] →
  labels_of pk ⊆ header f →
  ∃ merged_data,
    snapshot_records (Some new) stream snapshot_dir pk just_new w =
      (inr (Some (if just_new then new else merged_data)),
       put_file (snapshot_path snapshot_dir stream)
         (mkCsv (columns merged_data) (map cells (rows merged_data))) w) ∧
    NoDup (map (pk_value (labels_of pk) (columns merged_data))
             (rows merged_data)) ∧
    ∀ k, k ∈ map (pk_value (labels_of pk) (columns merged_data))
               (rows merged_data) ↔
         k ∈ map (pk_value (labels_of pk) (header f))
               (rows (frame_of_csv f)) ∨
         k ∈ map (pk_value (labels_of pk) (columns new)) (rows new).
Proof.
  intros Hf Hfault Hne Hcs.
  set (old := frame_of_csv f).
  assert (labels_of pk ⊆ columns (concat old new)) as Hm
    by (etrans; [exact Hcs|apply (columns_concat_l old new)]).
  destruct (indices_Some _ _ Hm) as [ix Hix].
  assert (∀ r, key_of ix r = pk_value (labels_of pk) (columns (concat old new)) r)
    as Hkey by (intros r; by apply key_of_pk_value).
  exists (mkDF (columns (concat old new))
            (dedup_last (key_of ix) (rows (concat old new)))).
  split; [|split].
  - unfold snapshot_records, bind. rewrite read_snapshots_run, Hf. simpl.
    fold old. rewrite (drop_duplicates_run _ keep_last _ _ Hne Hix). simpl.
    unfold to_csv. rewrite Hfault. simpl. by destruct just_new.
  - cbn [columns rows].
    rewrite <- (map_ext _ _ Hkey). apply dedup_last_NoDup.
  - intros k. cbn [columns rows].
    rewrite <- (map_ext _ _ Hkey), dedup_last_keys, (map_ext _ _ Hkey).
    rewrite rows_concat, map_app, elem_of_app, !map_map.
    rewrite (map_ext (λ r, pk_value (labels_of pk) (columns (concat old new))
                             (reindex_row (columns (concat old new))
                                (columns old) r))
               (pk_value (labels_of pk) (columns old)))
      by (intros r; by apply pk_value_reindex).
    rewrite (map_ext (λ r, pk_value (labels_of pk) (columns (concat old new))
                             (reindex_row (columns (concat old new))
                                (columns new) r))
               (pk_value (labels_of pk) (columns new)))
      by (intros r; by apply pk_value_reindex).
    done.
Qed.

(** X2.  A primary-key column that neither the stored snapshot nor the stream
    data has makes the merge fail with KeyError at line 196, before the
    write: the stored snapshot and the rest of the world stay as they were. *)
Theorem snapshot_records_missing_pk new stream snapshot_dir pk just_new w f c :
  files w !! snapshot_path snapshot_dir stream = Some f →
  c ∈ labels_of pk →
  c ∉ header f →
  c ∉ columns new →
  rows new ≠ [] →
  columns new ≠ [] →
  snapshot_records (Some new) stream snapshot_dir pk just_new w =
    (inl KeyError, w).
Proof.
  intros Hf Hc Hold Hnew Hrows Hcols.
  unfold snapshot_records, bind. rewrite read_snapshots_run, Hf. simpl.
  set (old := frame_of_csv f).
  assert (drop_duplicates (labels_of pk) keep_last (concat old new) =
          inl KeyError) as ->; [|done].
  unfold drop_duplicates, empty.
  rewrite (bool_decide_eq_false_2 (rows (concat old new) = [])); last first.
  { rewrite rows_concat. intros [_ H]%app_eq_nil.
    by apply map_eq_nil in H. }
  rewrite bool_decide_eq_false_2; last first.
  { change (columns (concat old new))
      with (columns old ++ filter (λ x, x ∉ columns old) (columns new)).
    intros [H1 H2]%app_eq_nil. rewrite H1 in H2.
    destruct (columns new) as [|c' cs]; [done|].
    by rewrite filter_cons_True in H2 by apply not_elem_of_nil. }
  simpl orb. cbv iota.
  destruct (indices (labels_of pk) (columns (concat old new))) as [ix|] eqn:Hix;
    [|done].
  exfalso. apply indices_subseteq in Hix. apply Hix in Hc.
  simpl in Hc. apply elem_of_app in Hc as [?|[_ ?]%list_elem_of_filter]; done.
Qed.

(** X4.  [snapshot_records] is confined to its stream: whatever the arguments and
    the outcome, it changes no DataFrame object and no file other than the
    snapshot file of [stream]. *)
Theorem snapshot_records_other_files stream_data stream snapshot_dir pk
    just_new w p :
  p ≠ snapshot_path snapshot_dir stream →
  files (snapshot_records stream_data stream snapshot_dir pk just_new w).2
    !! p = files w !! p ∧
  heap (snapshot_records stream_data stream snapshot_dir pk just_new w).2 =
    heap w.
Proof.
  intros Hp. unfold snapshot_records, bind. rewrite read_snapshots_run.
  unfold lift, to_csv, after_fault, ret, raise.
  repeat (case_match; simplify_eq/=; try done);
    by rewrite lookup_insert_ne.
Qed.

Lemma drop_duplicates_missing subset k d c :
  c ∈ subset → c ∉ columns d → empty d = false →
  drop_duplicates subset k d = inl KeyError.
Proof.
  intros Hc Hcols He. unfold drop_duplicates. rewrite He.
  destruct (indices subset (columns d)) as [ix|] eqn:Hix; [|done].
  exfalso. apply indices_subseteq in Hix. by apply Hcols, Hix.
Qed.

(** X5.  A non-empty batch that lacks a column of a non-empty [pk] is refused at
    line 263 with KeyError: by then [drop_redundant] has made its copy and
    nothing else; no file is read or written, whatever [updated_flag] and
    the stored snapshot. *)
Theorem drop_redundant_missing_pk df name output_dir pk updated_flag w d c :
  heap w !! df = Some d →
  truthy pk = true →
  c ∈ labels_of pk →
  c ∉ columns d →
  rows d ≠ [] →
  columns d ≠ [] →
  drop_redundant df name output_dir pk updated_flag w =
    (inl KeyError, push d w).
Proof.
  intros Hd Hpk Hc Hcols Hrows Hne.
  apply list_lookup_total_correct in Hd.
  assert (empty d = false) as He.
  { unfold empty. by rewrite !bool_decide_eq_false_2. }
  apply wp_run. unfold drop_redundant, drop_redundant_unique.
  apply wp_bind, wp_bind, wp_df_copy. rewrite Hpk, Hd.
  apply wp_df_new; rewrite heap_push_new,
    (drop_duplicates_missing _ keep_first _ c Hc Hcols He); [|done].
  by intros e [= <-].
Qed.

(** *** The files of other streams *)

Lemma snapshot_records_other_file stream_data stream snapshot_dir pk
    just_new w p :
  p ≠ snapshot_path snapshot_dir stream →
  wp (snapshot_records stream_data stream snapshot_dir pk just_new) w
    (λ _ w', files w' !! p = files w !! p).
Proof.
  intros Hp. unfold wp, snapshot_records, bind. rewrite read_snapshots_run.
  unfold lift, to_csv, after_fault, ret, raise.
  repeat (case_match; simplify_eq/=; try done);
    by rewrite lookup_insert_ne.
Qed.

(** X6.  [drop_redundant] is confined to its stream: whatever the arguments and
    the outcome, every file other than the hash snapshot of [name] is as it
    was before the call. *)
Theorem drop_redundant_other_files df name output_dir pk updated_flag w p :
  p ≠ output_dir +:+ "/" +:+ name +:+ ".hash.snapshot.csv" →
  files (drop_redundant df name output_dir pk updated_flag w).2 !! p =
    files w !! p.
Proof.
  intros Hp.
  change (wp (drop_redundant df name output_dir pk updated_flag) w
            (λ _ w', files w' !! p = files w !! p)).
  assert (p ≠ snapshot_path output_dir (name +:+ ".hash")) as Hp'
    by by rewrite hash_snapshot_path.
  unfold drop_redundant.
  apply wp_bind. eapply wp_mono; [apply drop_redundant_unique_spec|].
  intros [e|df1] w1 (Hf1 & _ & _ & _); cbv beta iota; [by rewrite Hf1|].
  unfold drop_redundant_compare. wp_steps.
  all: try (eapply wp_mono; [by apply snapshot_records_other_file|];
            intros [?|?] w2 Hw2; cbv beta iota; wp_steps).
  all: simpl; rewrite ?Hw2; simpl; by rewrite ?Hf1.
Qed.

(** *** Row hashes and cell boundaries *)

Lemma concat_empty_app (l1 l2 : list string) :
  String.concat "" (l1 ++ l2) = String.concat "" l1 +:+ String.concat "" l2.
Proof.
  induction l1 as [|x l1 IH]; [done|].
  destruct l1 as [|y l1].
  - simpl. destruct l2 as [|z l2]; simpl.
    + clear. induction x as [|a x IHx]; [done|].
      change (String a x = String a (x +:+ "")). by rewrite <- IHx.
    + done.
  - change (x +:+ String.concat "" ((y :: l1) ++ l2) =
            (x +:+ String.concat "" (y :: l1)) +:+ String.concat "" l2).
    by rewrite IH, append_assoc.
Qed.

(** X7.  [get_row_hash] joins the cells without a separator, so it cannot see
    where one cell ends and the next begins: moving text from the end of a
    cell to the start of the next one leaves the hash unchanged, for every
    digest and whatever surrounds the two cells. *)
Theorem get_row_hash_cell_boundary lb1 lb2 before after (a b c : string) :
  get_row_hash (mkRow lb1 (before ++ VStr (a +:+ b) :: VStr c :: after)) =
  get_row_hash (mkRow lb2 (before ++ VStr a :: VStr (b +:+ c) :: after)).
Proof.
  unfold get_row_hash. simpl. f_equal.
  rewrite !map_app, !concat_empty_app. f_equal.
  change (String.concat "" ([a +:+ b; c] ++ map astype_str after) =
          String.concat "" ([a; b +:+ c] ++ map astype_str after)).
  rewrite !concat_empty_app. f_equal. simpl.
  by rewrite append_assoc.
Qed.

End etl_utils.

(** ** Concrete runs *)

(** The collision of the specification: stored (1, ha), incoming (1, hb);
    the merged table and the rewritten file hold the single row (1, hb). *)
Example snapshot_records_collision :
  snapshot_records (Some incoming_1_hb) "s" "out" (PkStr "pk") false
    collision_world =
    (inr (Some (mkDF ["pk"; "hash"] [mkRow (VInt 0) [VInt 1; VStr "hb"]])),
     put_file "out/s.snapshot.csv"
       (mkCsv ["pk"; "hash"] [[VInt 1; VStr "hb"]]) collision_world).
Proof. by vm_compute. Qed.

(** The first run of the scenario returns both rows and stores their
    hashes. *)
Example scenario_first_run :
  (drop_redundant scenario_digest setitem_one_column 0%nat "s" "out"
     (PkList ["id"]) false first_run_world).1 = inr 4%nat ∧
  heap (drop_redundant scenario_digest setitem_one_column 0%nat "s" "out"
          (PkList ["id"]) false first_run_world).2 !! 4%nat =
    Some scenario_batch ∧
  files (drop_redundant scenario_digest setitem_one_column 0%nat "s" "out"
           (PkList ["id"]) false first_run_world).2
    !! "out/s.hash.snapshot.csv" =
    Some (mkCsv ["id"; "hash"] [[VStr "A"; VStr "x1"]; [VStr "B"; VStr "y1"]]).
Proof. by vm_compute. Qed.

(** With [updated_flag] set, the scenario runs to the end: only (B, 2) is
    returned, flagged as new, and the snapshot is rewritten. *)
Example scenario_with_updated_flag :
  let run := drop_redundant scenario_digest setitem_one_column 0%nat "s" "out"
               (PkList ["id"]) true scenario_world in
  run.1 = inr 14%nat ∧
  heap run.2 !! 14%nat =
    Some (mkDF ["id"; "val"; "_updated"]
            [mkRow (VInt 0) [VStr "B"; VInt 2; VBool false]]).
Proof. by vm_compute. Qed.

(** C2 at the scenario: the first run returns, the second raises. *)
Lemma drop_redundant_twice_raises_witness :
  let w1 := (drop_redundant scenario_digest setitem_one_column 0%nat "s" "out"
               (PkList ["id"]) false first_run_world).2 in
  drop_redundant scenario_digest setitem_one_column 0%nat "s" "out"
    (PkList ["id"]) false first_run_world = (inr 4%nat, w1) ∧
  ∃ e w2,
    drop_redundant scenario_digest setitem_one_column 0%nat "s" "out"
      (PkList ["id"]) false w1 = (inl e, w2) ∧
    files w2 = files w1.
Proof.
  split; [by vm_compute|].
  apply (drop_redundant_twice_raises scenario_digest setitem_one_column
           0%nat "s" "out" (PkList ["id"]) first_run_world 4%nat).
  by vm_compute.
Defined.

(** A stored snapshot with the keys 1 and 2 and incoming data with the key
    1: the stored row of key 2 stays, in front; the row of key 1 is the
    incoming one. *)
Example snapshot_records_keeps_stored :
  snapshot_records (Some incoming_1_hb) "s" "out" (PkStr "pk") false
    stored_1_2_world =
    (inr (Some (mkDF ["pk"; "hash"]
                  [mkRow (VInt 1) [VInt 2; VStr "hc"];
                   mkRow (VInt 0) [VInt 1; VStr "hb"]])),
     put_file "out/s.snapshot.csv"
       (mkCsv ["pk"; "hash"] [[VInt 2; VStr "hc"]; [VInt 1; VStr "hb"]])
       stored_1_2_world).
Proof. by vm_compute. Qed.

(** C3 at the collision of the specification, with one more stored key. *)
Lemma snapshot_records_new_wins_witness :
  ∃ merged_data,
    snapshot_records (Some incoming_1_hb) "s" "out" (PkStr "pk") false
      stored_1_2_world =
      (inr (Some merged_data),
       put_file "out/s.snapshot.csv"
         (mkCsv (columns merged_data) (map cells (rows merged_data)))
         stored_1_2_world) ∧
    filter (λ r, pk_value ["pk"] (columns merged_data) r = [VInt 1])
      (rows merged_data) = [mkRow (VInt 0) [VInt 1; VStr "hb"]] ∧
    filter (λ r, pk_value ["pk"] (columns merged_data) r = [VInt 2])
      (rows merged_data) = [mkRow (VInt 1) [VInt 2; VStr "hc"]].
Proof.
  destruct (snapshot_records_new_wins incoming_1_hb "s" "out" (PkStr "pk")
              false stored_1_2_world stored_1_2 [VInt 1])
    as (m & r & Hrun & Hcols & Hlast & Hfilter & _ & Hstored & _).
  - reflexivity.
  - reflexivity.
  - discriminate.
  - intros c Hc. apply list_elem_of_singleton in Hc as ->. left.
  - left.
  - exists m. split; [exact Hrun|].
    vm_compute in Hlast. injection Hlast as <-.
    cbn [labels_of] in Hfilter, Hstored. split.
    + rewrite Hfilter, Hcols. reflexivity.
    + rewrite (Hstored [VInt 2]), Hcols; [reflexivity|].
      apply (bool_decide_unpack _). reflexivity.
Defined.

(** C4 (amended) at the first run of the scenario. *)
Lemma drop_redundant_first_run_witness :
  ∃ out w',
    drop_redundant scenario_digest setitem_one_column 0%nat "s" "out"
      (PkList ["id"]) false first_run_world = (inr out, w') ∧
    heap w' !! out = Some scenario_batch ∧
    files w' !! "out/s.hash.snapshot.csv" =
      Some (mkCsv ["id"; "hash"] [[VStr "A"; VStr "x1"]; [VStr "B"; VStr "y1"]]).
Proof.
  destruct (drop_redundant_first_run scenario_digest setitem_one_column
              0%nat "s" "out" ["id"] false first_run_world scenario_batch)
    as (out & w' & Hrun & Hheap & Hfiles & _).
  - reflexivity.
  - repeat constructor.
  - intros c Hc. apply list_elem_of_singleton in Hc as ->. left.
  - apply (bool_decide_unpack _). reflexivity.
  - reflexivity.
  - reflexivity.
  - exists out, w'. split; [exact Hrun|]. split.
    + rewrite Hheap. reflexivity.
    + rewrite Hfiles. reflexivity.
Defined.

(** C4 as stated fails on a batch that has a column named "hash": the
    column is overwritten at line 265 and dropped at line 287, so the frame
    returned by the first run is not the batch. *)
Lemma first_run_drops_hash_column :
  ∃ out,
    (drop_redundant scenario_digest setitem_one_column 0%nat "s" "out"
       (PkList ["id"]) false hash_column_world).1 = inr out ∧
    heap (drop_redundant scenario_digest setitem_one_column 0%nat "s" "out"
            (PkList ["id"]) false hash_column_world).2 !! out =
      Some (mkDF ["id"] [mkRow (VInt 0) [VInt 1]]) ∧
    heap (drop_redundant scenario_digest setitem_one_column 0%nat "s" "out"
            (PkList ["id"]) false hash_column_world).2 !! out ≠
      Some (unique_rows (PkList ["id"]) batch_with_hash).
Proof.
  exists 4%nat. vm_compute. split; [reflexivity|]. split; [reflexivity|].
  discriminate.
Qed.

(** C5 on two rows of different origin. *)
Lemma get_row_hash_deterministic_witness :
  map astype_str (cells row_typed) = map astype_str (cells row_text) ∧
  get_row_hash scenario_digest row_typed =
  get_row_hash scenario_digest row_text.
Proof.
  split; [reflexivity|].
  apply (get_row_hash_deterministic scenario_digest row_typed row_text).
  reflexivity.
Defined.

(** C6 on a batch with two rows of primary key 5. *)
Lemma drop_redundant_unique_keeps_first_witness :
  ∃ out w' d',
    drop_redundant_unique 0%nat (PkList ["pk"]) two_fives_world =
      (inr out, w') ∧
    heap w' !! out = Some d' ∧
    filter (λ r, pk_value ["pk"] ["pk"; "val"] r = [VInt 5]) (rows d') =
      [mkRow (VInt 0) [VInt 5; VStr "first"]].
Proof.
  destruct (drop_redundant_unique_keeps_first 0%nat (PkList ["pk"])
              two_fives_world batch_two_fives)
    as (out & w' & Hrun & d' & Hheap & _ & Hfirst).
  - reflexivity.
  - reflexivity.
  - intros c Hc. apply list_elem_of_singleton in Hc as ->. left.
  - exists out, w', d'. split; [exact Hrun|]. split; [exact Hheap|].
    apply (Hfirst [VInt 5]).
Defined.

(** A first run of the scenario on a device whose write fails when only
    the header has reached the file: the failure of the write is the
    exception of [drop_redundant], and the hash snapshot holds the header
    and no line. *)
Example drop_redundant_failed_first_run :
  let run := drop_redundant scenario_digest setitem_one_column 0%nat "s" "out"
               (PkList ["id"]) false failing_first_run_world in
  run.1 = inl OSError ∧
  files run.2 !! "out/s.hash.snapshot.csv" = Some (mkCsv ["id"; "hash"] []).
Proof. by vm_compute. Qed.

(** C8 (amended) on a write that fails when only the header has reached
    the file: the stored snapshot (1, ha) is gone. *)
Lemma snapshot_records_failed_write_witness :
  snapshot_records (Some incoming_1_hb) "s" "out" (PkStr "pk") false
    failing_batch_world =
    (inl OSError,
     put_file "out/s.snapshot.csv" (mkCsv ["pk"; "hash"] [])
       failing_batch_world) ∧
  ∃ e w',
    drop_redundant scenario_digest setitem_one_column 0%nat "s" "out"
      (PkList ["pk"]) false failing_batch_world = (inl e, w') ∧
    (files w' = files failing_batch_world ∨
     e = OSError ∧
     files w' =
       files (put_file "out/s.hash.snapshot.csv" (mkCsv ["pk"; "hash"] [])
                failing_batch_world)).
Proof.
  apply (snapshot_records_failed_write scenario_digest setitem_one_column
           incoming_1_hb "s" "out" (PkStr "pk") false 0%nat "s" "out"
           (PkList ["pk"]) false failing_batch_world
           (header_only_fault ["pk"])
           (mkDF ["pk"; "hash"] [mkRow (VInt 0) [VInt 1; VStr "hb"]])).
  - reflexivity.
  - reflexivity.
Defined.

(** C9 on the scenario with [updated_flag] set, the run with the most
    in-place assignments. *)
Lemma drop_redundant_keeps_caller_frame_witness :
  heap scenario_world !! 0%nat = Some scenario_batch ∧
  heap (drop_redundant scenario_digest setitem_one_column 0%nat "s" "out"
          (PkList ["id"]) true scenario_world).2 !! 0%nat =
    Some scenario_batch.
Proof.
  split; [reflexivity|].
  apply (drop_redundant_keeps_caller_frame scenario_digest setitem_one_column
           0%nat "s" "out" (PkList ["id"]) true scenario_world scenario_batch).
  reflexivity.
Defined.

(** C10 at the first run of the scenario with pk = "id". *)
Lemma drop_redundant_string_pk_first_run_witness :
  ∃ w',
    drop_redundant scenario_digest setitem_one_column 0%nat "s" "out"
      (PkStr "id") false first_run_world = (inl TypeError, w') ∧
    files w' = files first_run_world.
Proof.
  destruct (drop_redundant_string_pk_first_run scenario_digest
              setitem_one_column 0%nat "s" "out" "id" false first_run_world)
    as (e & w' & Hrun & Hfiles & He).
  - reflexivity.
  - exists w'. rewrite <- He; [done|]. left. left.
Defined.


(** ** Folders of extracted files: properties *)

(** *** Strings *)

Lemma prefix_nil t : String.prefix "" t = true.
Proof. by destruct t. Qed.

Lemma prefix_char c x t :
  String.prefix (String c "") (String x t) = bool_decide (c = x).
Proof.
  simpl. destruct (Ascii.ascii_dec c x) as [->|Hne].
  - rewrite bool_decide_eq_true_2 by done. apply prefix_nil.
  - by rewrite bool_decide_eq_false_2.
Qed.

Lemma prefix_append sep rest : String.prefix sep (sep +:+ rest) = true.
Proof.
  induction sep as [|a sep IH]; [apply prefix_nil|].
  change (String.prefix (String a sep) (String a (sep +:+ rest)) = true).
  simpl. by destruct (Ascii.ascii_dec a a).
Qed.

Lemma prefix_length sep s :
  String.prefix sep s = true → (String.length sep ≤ String.length s)%nat.
Proof.
  revert s. induction sep as [|a sep IH]; intros [|b s]; simpl; try done; [lia|].
  destruct (Ascii.ascii_dec a b); [|done]. intros H%IH. lia.
Qed.

Lemma before_last_nil sep :
  before_last sep "" = if String.prefix sep "" then Some "" else None.
Proof. done. Qed.

Lemma before_last_cons sep a s :
  before_last sep (String a s) =
  match before_last sep s with
  | Some h => Some (String a h)
  | None => if String.prefix sep (String a s) then Some "" else None
  end.
Proof. done. Qed.

Lemma before_last_length sep s h :
  before_last sep s = Some h →
  (String.length sep ≤ String.length s)%nat.
Proof.
  revert h. induction s as [|a s IH]; intros h;
    [rewrite before_last_nil|rewrite before_last_cons].
  - destruct (String.prefix sep "") eqn:Hp; [|done].
    intros _. by apply prefix_length in Hp.
  - destruct (before_last sep s) as [h'|] eqn:Hb.
    + intros _. specialize (IH h' eq_refl). simpl. lia.
    + destruct (String.prefix sep (String a s)) eqn:Hp; [|done].
      intros _. by apply prefix_length in Hp.
Qed.

Lemma length_append (a b : string) :
  String.length (a +:+ b) = (String.length a + String.length b)%nat.
Proof.
  induction a as [|x a IH]; [done|].
  change (S (String.length (a +:+ b)) = S (String.length a + String.length b)).
  by rewrite IH.
Qed.

(** The last occurrence of a marker at the end of a string is the end. *)
Lemma before_last_suffix sep s :
  sep ≠ "" → before_last sep (s +:+ sep) = Some s.
Proof.
  intros Hsep. induction s as [|a s IH].
  - destruct sep as [|c sep]; [done|].
    change (before_last (String c sep) (String c sep) = Some "").
    rewrite before_last_cons.
    destruct (before_last (String c sep) sep) as [h|] eqn:Hb.
    + apply before_last_length in Hb. simpl in Hb. lia.
    + pose proof (prefix_append (String c sep) "") as Hp.
      assert (∀ t, t +:+ "" = t) as Heq.
      { clear. intros t. induction t as [|x t IH]; [done|].
        change (String x (t +:+ "") = String x t). by rewrite IH. }
      rewrite Heq in Hp. by rewrite Hp.
  - change (before_last sep (String a (s +:+ sep)) = Some (String a s)).
    rewrite before_last_cons. by rewrite IH.
Qed.

Lemma contains_cons sub x s :
  contains sub (String x s) =
  String.prefix sub (String x s) || contains sub s.
Proof. done. Qed.

Lemma contains_char_cons c x s :
  contains (String c "") (String x s) =
  bool_decide (c = x) || contains (String c "") s.
Proof. by rewrite contains_cons, prefix_char. Qed.

Lemma before_last_absent c s :
  contains (String c "") s = false → before_last (String c "") s = None.
Proof.
  induction s as [|x s IH]; [done|].
  rewrite contains_char_cons. intros [Hx Hs]%orb_false_iff.
  rewrite before_last_cons, (IH Hs). by rewrite prefix_char, Hx.
Qed.

(** The text before the last occurrence of a character. *)
Lemma before_last_char c a b :
  contains (String c "") b = false →
  before_last (String c "") (a +:+ String c b) = Some a.
Proof.
  intros Hb. induction a as [|x a IH].
  - change (before_last (String c "") (String c b) = Some "").
    rewrite before_last_cons, (before_last_absent _ _ Hb).
    by rewrite prefix_char, bool_decide_eq_true_2.
  - change (before_last (String c "") (String x (a +:+ String c b)) =
            Some (String x a)).
    rewrite before_last_cons. by rewrite IH.
Qed.

Lemma contains_append sub a rest : contains sub (a +:+ sub +:+ rest) = true.
Proof.
  induction a as [|x a IH].
  - change (contains sub (sub +:+ rest) = true).
    pose proof (prefix_append sub rest) as Hp.
    destruct (sub +:+ rest);
      [by change (String.prefix sub "" || false = true); rewrite Hp|].
    by rewrite contains_cons, Hp.
  - change (contains sub (String x (a +:+ sub +:+ rest)) = true).
    rewrite contains_cons, IH. apply orb_true_r.
Qed.

Lemma contains_char_append c a b :
  contains (String c "") (a +:+ b) =
  contains (String c "") a || contains (String c "") b.
Proof.
  induction a as [|x a IH].
  - change (contains (String c "") b = false || contains (String c "") b).
    done.
  - change (contains (String c "") (String x (a +:+ b)) =
            contains (String c "") (String x a) || contains (String c "") b).
    rewrite !contains_char_cons, IH. by rewrite orb_assoc.
Qed.

Lemma split_nonempty sep s : split sep s ≠ [].
Proof.
  destruct s as [|a s]; [done|]. simpl. case_decide; [done|].
  by destruct (split sep s).
Qed.

Lemma split_absent c s :
  contains (String c "") s = false → split (String c "") s = [s].
Proof.
  induction s as [|x s IH]; [done|].
  rewrite contains_char_cons. intros [Hx Hs]%orb_false_iff.
  apply bool_decide_eq_false in Hx. simpl.
  rewrite decide_False by congruence. by rewrite (IH Hs).
Qed.

(** [(d + sep + n).split(sep) == d.split(sep) + n.split(sep)] *)
Lemma split_append c d n :
  split (String c "") (d +:+ String c n) =
  split (String c "") d ++ split (String c "") n.
Proof.
  induction d as [|x d IH].
  - change (split (String c "") (String c n) = [""] ++ split (String c "") n).
    simpl. by rewrite decide_True.
  - change (split (String c "") (String x (d +:+ String c n)) =
            split (String c "") (String x d) ++ split (String c "") n).
    simpl. rewrite IH. case_decide; [done|].
    pose proof (split_nonempty (String c "") d).
    by destruct (split (String c "") d).
Qed.

Lemma last_component c d n :
  contains (String c "") n = false →
  last (split (String c "") (d +:+ String c n)) = Some n.
Proof.
  intros Hn. by rewrite split_append, (split_absent _ _ Hn), last_snoc.
Qed.

(** *** Entity names *)

Lemma rsplit1_head_suffix sep s : sep ≠ "" → rsplit1_head sep (s +:+ sep) = s.
Proof. intros Hsep. unfold rsplit1_head. by rewrite before_last_suffix. Qed.

Lemma rsplit1_head_char c a b :
  contains (String c "") b = false →
  rsplit1_head (String c "") (a +:+ String c "" +:+ b) = a.
Proof.
  intros Hb. unfold rsplit1_head.
  change (a +:+ String c "" +:+ b) with (a +:+ String c b).
  by rewrite before_last_char.
Qed.

Lemma last_component_sep c d n :
  contains (String c "") n = false →
  last (split (String c "") (d +:+ String c "" +:+ n)) = Some n.
Proof. apply last_component. Qed.

Lemma contains_char_sep c a b :
  contains (String c "") (a +:+ String c "" +:+ b) = true.
Proof. apply contains_append. Qed.

Lemma contains_other_sep c c' a b :
  c ≠ c' →
  contains (String c "") (a +:+ String c' "" +:+ b) =
  contains (String c "") a || contains (String c "") b.
Proof.
  intros Hc. change (a +:+ String c' "" +:+ b) with (a +:+ String c' b).
  rewrite contains_char_append, contains_char_cons.
  by rewrite bool_decide_eq_false_2.
Qed.

Lemma entity_type_stem ext dir stem a b :
  contains "/" stem = false →
  rsplit1_head ext stem = a +:+ "-" +:+ b →
  contains "-" b = false →
  entity_type ext (dir +:+ "/" +:+ stem) = a.
Proof.
  intros Hstem Hext Hb. unfold entity_type.
  rewrite (last_component_sep _ dir stem Hstem). simpl default. rewrite Hext.
  rewrite contains_char_sep. by apply rsplit1_head_char.
Qed.

(** X8.  [read_csv_folder] names a file [<a>-<b>.csv] after [a], the text before
    the last hyphen of its name, whatever the folder: a time stamp is cut
    off, and so is the end of a hyphenated name that has no time stamp. *)
Theorem entity_type_csv dir a b :
  contains "/" a = false →
  contains "/" b = false →
  contains "-" b = false →
  entity_type ".csv" (dir +:+ "/" +:+ a +:+ "-" +:+ b +:+ ".csv") = a.
Proof.
  intros Ha Hb Hh.
  apply (entity_type_stem ".csv" dir _ a b); [| |done].
  - rewrite contains_other_sep, Ha by done.
    by rewrite contains_char_append, Hb.
  - rewrite <- (append_assoc "-" b), <- (append_assoc a).
    by apply rsplit1_head_suffix.
Qed.

(** X9.  [Reader.read_directories] names a file [<a>-<b>.<ext>] after [a] as
    well: the name is cut before its last dot, then before its last
    hyphen. *)
Theorem entity_type_reader dir a b ext :
  contains "/" a = false →
  contains "/" b = false →
  contains "/" ext = false →
  contains "." ext = false →
  contains "-" b = false →
  entity_type "." (dir +:+ "/" +:+ a +:+ "-" +:+ b +:+ "." +:+ ext) = a.
Proof.
  intros Ha Hb Hext Hdot Hh.
  apply (entity_type_stem "." dir _ a b); [| |done].
  - rewrite contains_other_sep, Ha by done.
    by rewrite contains_other_sep, Hb, Hext by done.
  - rewrite <- (append_assoc "-" b), <- (append_assoc a).
    by apply rsplit1_head_char.
Qed.

(** A file name without a hyphen is cut at the extension only. *)
Theorem entity_type_csv_plain dir a :
  contains "/" a = false →
  contains "-" a = false →
  entity_type ".csv" (dir +:+ "/" +:+ a +:+ ".csv") = a.
Proof.
  intros Ha Hh. unfold entity_type.
  rewrite last_component_sep
    by (by rewrite contains_char_append, Ha).
  simpl default. rewrite rsplit1_head_suffix by done. by rewrite Hh.
Qed.

(** *** The first file of an entity *)

Lemma first_of_nil ext e : first_of ext [] e = None.
Proof. done. Qed.

Lemma first_of_cons_eq ext file files e :
  entity_type ext file = e → first_of ext (file :: files) e = Some file.
Proof. intros He. unfold first_of. simpl. by rewrite decide_True. Qed.

Lemma first_of_cons_ne ext file files e :
  entity_type ext file ≠ e →
  first_of ext (file :: files) e = first_of ext files e.
Proof.
  intros He. unfold first_of. simpl. rewrite decide_False by done.
  by destruct (list_find _ files) as [[i f]|].
Qed.

Lemma first_of_Some ext files e file :
  first_of ext files e = Some file →
  file ∈ files ∧ entity_type ext file = e.
Proof.
  induction files as [|f files IH]; [done|].
  destruct (decide (entity_type ext f = e)) as [He|He].
  - rewrite first_of_cons_eq by done. intros [= <-]. split; [left|done].
  - rewrite first_of_cons_ne by done. intros [? ?]%IH. split; [by right|done].
Qed.

Lemma read_directories_loop (ignore files : list string)
    (acc : gmap string string) e :
  foldl (λ results file,
           let entity := entity_type "." file in
           if bool_decide (results !! entity = None) &&
              bool_decide (entity ∉ ignore)
           then <[entity := file]> results
           else results) acc files !! e =
  match acc !! e with
  | Some file => Some file
  | None => if decide (e ∈ ignore) then None else first_of "." files e
  end.
Proof.
  revert acc. induction files as [|file files IH]; intros acc.
  - simpl. rewrite first_of_nil. destruct (acc !! e); [done|]. by case_decide.
  - simpl. rewrite IH. clear IH.
    destruct (decide (entity_type "." file = e)) as [He|He].
    + subst e. rewrite first_of_cons_eq by done.
      destruct (acc !! entity_type "." file) as [x|] eqn:Hacc.
      * rewrite (bool_decide_eq_false_2 (Some x = None)) by done. simpl.
        by rewrite Hacc.
      * rewrite (bool_decide_eq_true_2 (None = None)) by done. simpl.
        destruct (decide (entity_type "." file ∈ ignore)) as [Hi|Hi].
        -- rewrite bool_decide_eq_false_2 by (by intros ?). by rewrite Hacc.
        -- rewrite bool_decide_eq_true_2 by done. by rewrite lookup_insert_eq.
    + rewrite first_of_cons_ne by done.
      destruct (bool_decide _ && bool_decide _); [|done].
      by rewrite lookup_insert_ne.
Qed.

Lemma first_of_split ext files e file :
  first_of ext files e = Some file ↔
  ∃ before after,
    files = before ++ file :: after ∧
    entity_type ext file = e ∧
    ∀ f, f ∈ before → entity_type ext f ≠ e.
Proof.
  induction files as [|f files IH].
  - rewrite first_of_nil. split; [done|].
    intros (before & after & Hnil & _). by destruct before.
  - destruct (decide (entity_type ext f = e)) as [He|He].
    + rewrite first_of_cons_eq by done. split.
      * intros [= <-]. exists [], files. split; [done|]. split; [done|].
        by intros ? ?%elem_of_nil.
      * intros ([|b before] & after & Hsplit & _ & Hbefore).
        -- by injection Hsplit as ->.
        -- injection Hsplit as <- _. destruct (Hbefore f); [left|done].
    + rewrite first_of_cons_ne by done. rewrite IH. split.
      * intros (before & after & -> & Hfile & Hbefore).
        exists (f :: before), after. split; [done|]. split; [done|].
        intros f' [->|?]%elem_of_cons; [done|by apply Hbefore].
      * intros ([|b before] & after & Hsplit & Hfile & Hbefore).
        -- injection Hsplit as -> _. done.
        -- injection Hsplit as <- ->. exists before, after.
           split; [done|]. split; [done|].
           intros f' Hf'. apply Hbefore. by right.
Qed.

Lemma read_directories_first_of os dir ignore e :
  read_directories os dir ignore !! e =
  if decide (e ∈ ignore) then None else first_of "." (reader_files os dir) e.
Proof. unfold read_directories. by rewrite read_directories_loop. Qed.

(** X10.  The complete answer of [Reader.read_directories]: an entity maps to a
    file exactly when it is not ignored and the file is the first one, in
    the order of the listing, that carries its name; later files of the same
    entity (another time stamp, the other format) are left out. *)
Theorem read_directories_lookup os dir ignore e file :
  read_directories os dir ignore !! e = Some file ↔
  (e ∉ ignore) ∧
  ∃ before after,
    reader_files os dir = before ++ file :: after ∧
    entity_type "." file = e ∧
    ∀ f, f ∈ before → entity_type "." f ≠ e.
Proof.
  rewrite read_directories_first_of, <- first_of_split.
  case_decide; [|tauto]. split; [done|tauto].
Qed.

(** X11.  When [dir] is not a directory, [Reader.read_directories] takes the path
    itself as the only file, without looking at its extension or asking
    whether it exists. *)
Theorem read_directories_not_a_directory os dir ignore :
  os_isdir os dir = false →
  read_directories os dir ignore =
  if decide (entity_type "." dir ∈ ignore) then ∅
  else {[entity_type "." dir := dir]}.
Proof.
  intros Hdir. apply map_eq. intros e.
  rewrite read_directories_first_of. unfold reader_files. rewrite Hdir.
  destruct (decide (entity_type "." dir = e)) as [<-|He].
  - rewrite first_of_cons_eq by done. case_decide; [done|].
    by rewrite lookup_singleton_eq.
  - rewrite first_of_cons_ne, first_of_nil by done.
    destruct (decide (e ∈ ignore)), (decide (entity_type "." dir ∈ ignore));
      try done; by rewrite lookup_singleton_ne.
Qed.

(** X12.  In a directory, every file that [Reader.read_directories] records is an
    entry of the listing, joined to the directory, that is a regular file
    ending in ".csv" or ".parquet"; its entity is the key and is not
    ignored. *)
Theorem read_directories_files os dir ignore e file :
  os_isdir os dir = true →
  read_directories os dir ignore !! e = Some file →
  ∃ entry,
    entry ∈ os_listdir os dir ∧
    file = path_join dir entry ∧
    os_isfile os file = true ∧
    (endswith file ".csv" = true ∨ endswith file ".parquet" = true) ∧
    entity_type "." file = e ∧
    e ∉ ignore.
Proof.
  intros Hdir. rewrite read_directories_first_of. case_decide as Hi; [done|].
  intros [Hin He]%first_of_Some. unfold reader_files in Hin.
  rewrite Hdir in Hin. apply list_elem_of_filter in Hin as [[Hf Hext] Hin].
  apply list_elem_of_fmap in Hin as (entry & -> & Hentry).
  by exists entry.
Qed.

(** *** [read_csv_folder] *)

Lemma read_csv_files_world ignore all_files results w :
  (read_csv_files ignore all_files results w).2 = w.
Proof.
  revert results. induction all_files as [|file all_files IH]; intros results;
    [done|].
  simpl. destruct (bool_decide _ && bool_decide _); [|apply IH].
  unfold bind, read_csv. destruct (files w !! file); [apply IH|done].
Qed.

Lemma read_csv_files_lookup ignore all_files results w results' e :
  read_csv_files ignore all_files results w = (inr results', w) →
  results' !! e =
  match results !! e with
  | Some table => Some table
  | None =>
      if decide (e ∈ ignore) then None
      else first_of ".csv" all_files e ≫=
             λ file, frame_of_csv <$> files w !! file
  end.
Proof.
  revert results. induction all_files as [|file all_files IH]; intros results.
  - rewrite first_of_nil. intros [= <-].
    destruct (results !! e); [done|]. by case_decide.
  - cbn [read_csv_files].
    destruct (decide (entity_type ".csv" file = e)) as [He|He].
    + subst e. rewrite first_of_cons_eq by done.
      destruct (results !! entity_type ".csv" file) as [x|] eqn:Hacc.
      * rewrite (bool_decide_eq_false_2 (Some x = None)) by done. simpl.
        intros Hrun%IH. by rewrite Hrun, Hacc.
      * rewrite (bool_decide_eq_true_2 (None = None)) by done. simpl.
        destruct (decide (entity_type ".csv" file ∈ ignore)) as [Hi|Hi].
        -- rewrite bool_decide_eq_false_2 by (by intros ?).
           intros Hrun%IH. by rewrite Hrun, Hacc.
        -- rewrite bool_decide_eq_true_2 by done.
           unfold bind, read_csv. simpl.
           destruct (files w !! file) as [f|]; [|done].
           intros Hrun%IH. by rewrite Hrun, lookup_insert_eq.
    + rewrite first_of_cons_ne by done.
      destruct (bool_decide _ && bool_decide _).
      * unfold bind, read_csv. destruct (files w !! file) as [f|]; [|done].
        intros Hrun%IH. by rewrite Hrun, lookup_insert_ne.
      * apply IH.
Qed.

Lemma read_csv_files_returns ignore all_files results w :
  (∀ file, file ∈ all_files → is_Some (files w !! file)) →
  ∃ results', read_csv_files ignore all_files results w = (inr results', w).
Proof.
  revert results. induction all_files as [|file all_files IH];
    intros results Hall; [by eexists|].
  assert (∀ file, file ∈ all_files → is_Some (files w !! file)) as Hall'
    by (intros f Hf; apply Hall; by right).
  simpl. destruct (bool_decide _ && bool_decide _); [|by apply IH].
  unfold bind, read_csv. destruct (Hall file) as [f ->]; [left|].
  by apply IH.
Qed.

(** X13.  [read_csv_folder] only reads: whatever the folder, the files in it and
    the outcome, the world after the call is the world before it. *)
Theorem read_csv_folder_read_only os path ignore w :
  (read_csv_folder os path ignore w).2 = w.
Proof. apply read_csv_files_world. Qed.

(** X14.  When the files of the folder that end in ".csv" can be read,
    [read_csv_folder] returns, and its answer is complete: an ignored
    entity has no table, and every other entity has the table of the first
    file, in the order of the listing, that carries its name; a later file
    of the same entity is not read. *)
Theorem read_csv_folder_lookup os path ignore w :
  (∀ file, file ∈ csv_files os path → is_Some (files w !! file)) →
  ∃ results,
    read_csv_folder os path ignore w = (inr results, w) ∧
    ∀ e, results !! e =
         if decide (e ∈ ignore) then None
         else first_of ".csv" (csv_files os path) e ≫=
                λ file, frame_of_csv <$> files w !! file.
Proof.
  intros Hall. unfold read_csv_folder.
  destruct (read_csv_files_returns ignore _ ∅ w Hall) as [results Hrun].
  exists results. split; [done|]. intros e.
  by rewrite (read_csv_files_lookup _ _ _ _ _ e Hrun), lookup_empty.
Qed.

(** X15.  A path that is not a directory is taken as the one file to read,
    whatever its extension: [read_csv_folder] returns its table under its
    entity name, raises FileNotFoundError when there is no such file, and
    returns the empty dict without opening anything when the entity is
    ignored. *)
Theorem read_csv_folder_not_a_directory os path ignore w :
  os_isdir os path = false →
  read_csv_folder os path ignore w =
  (if decide (entity_type ".csv" path ∈ ignore) then inr ∅
   else match files w !! path with
        | Some f => inr {[entity_type ".csv" path := frame_of_csv f]}
        | None => inl FileNotFoundError
        end, w).
Proof.
  intros Hdir. unfold read_csv_folder, csv_files. rewrite Hdir. simpl.
  rewrite lookup_empty, (bool_decide_eq_true_2 (None = None)) by done.
  simpl. case_decide as Hi.
  - by rewrite bool_decide_eq_false_2 by (by intros ?).
  - rewrite bool_decide_eq_true_2 by done. unfold bind, read_csv.
    by destruct (files w !! path).
Qed.

(** ** The catalog: properties *)

Lemma types_loop_inv types headers acc r :
  py.types_loop types headers acc = inr r →
  (∃ dates, py.parse_dates r = py.parse_dates acc ++ dates ∧
            dates `sublist_of` headers ∧
            ∀ col, col ∈ dates → py.kind_of types col = inr None) ∧
  (∀ col, py.dtype_of r !! col = py.dtype_of acc !! col ∨
          col ∈ headers ∧
          ∃ d, py.kind_of types col = inr (Some d) ∧
               py.dtype_of r !! col = Some d) ∧
  (∀ col, col ∈ headers →
          col ∈ py.parse_dates r ∨ is_Some (py.dtype_of r !! col)) ∧
  (∀ col, is_Some (py.dtype_of acc !! col) → is_Some (py.dtype_of r !! col)).
Proof.
  revert acc. induction headers as [|c headers IH]; intros acc.
  - intros [= <-]. split; [|split; [|split]].
    + exists []. rewrite app_nil_r. split; [done|]. split; [done|].
      by intros col ?%elem_of_nil.
    + intros col. by left.
    + by intros col ?%elem_of_nil.
    + done.
  - cbn [py.types_loop]. unfold py.and_then at 1.
    destruct (py.get types c) as [e|col_type] eqn:Hget; [done|].
    unfold py.and_then at 1.
    destruct (py.column_type col_type) as [e|kind] eqn:Hkind; [done|].
    assert (py.kind_of types c = inr kind) as Hk.
    { unfold py.kind_of, py.and_then. by rewrite Hget. }
    destruct kind as [d|]; intros (Hdates & Hdtype & Hall & Hmono)%IH;
      cbn [py.dtype_of py.parse_dates] in *.
    + split; [|split; [|split]].
      * destruct Hdates as (dates & Hp & Hsub & Hnone).
        exists dates. split; [done|]. split; [by apply sublist_cons|done].
      * intros col. destruct (Hdtype col) as [Heq|(Hin & d' & Hd' & Hr)].
        -- destruct (decide (col = c)) as [->|Hne].
           ++ right. split; [left|]. exists d. split; [done|].
              by rewrite Heq, lookup_insert_eq.
           ++ left. by rewrite Heq, lookup_insert_ne.
        -- right. split; [by right|]. eauto.
      * intros col [->|Hin]%elem_of_cons; [|by apply Hall].
        right. apply Hmono. rewrite lookup_insert_eq. eauto.
      * intros col Hcol. apply Hmono.
        destruct (decide (col = c)) as [->|Hne].
        -- rewrite lookup_insert_eq. eauto.
        -- by rewrite lookup_insert_ne.
    + split; [|split; [|split]].
      * destruct Hdates as (dates & Hp & Hsub & Hnone).
        exists (c :: dates). rewrite Hp, <- app_assoc. split; [done|].
        split; [by apply sublist_skip|].
        intros col [->|?]%elem_of_cons; [done|by apply Hnone].
      * intros col. destruct (Hdtype col) as [Heq|(Hin & d' & Hd' & Hr)].
        -- by left.
        -- right. split; [by right|]. eauto.
      * intros col [->|Hin]%elem_of_cons; [|by apply Hall].
        left. destruct Hdates as (dates & -> & _).
        apply elem_of_app. left. apply elem_of_app. right. left.
      * done.
Qed.

Lemma get_types_from_catalog_loop headers catalog stream r :
  py.get_types_from_catalog headers catalog stream = inr r →
  ∃ types, py.types_loop types headers (py.mkArgs ∅ []) = inr r.
Proof.
  unfold py.get_types_from_catalog, py.and_then.
  repeat (case_match; try done). eauto.
Qed.

Lemma types_loop_partition types headers r :
  py.types_loop types headers (py.mkArgs ∅ []) = inr r →
  (∀ col, col ∈ headers ↔
          col ∈ py.parse_dates r ∨ is_Some (py.dtype_of r !! col)) ∧
  (∀ col, col ∈ py.parse_dates r → py.dtype_of r !! col = None) ∧
  py.parse_dates r `sublist_of` headers.
Proof.
  intros Hloop.
  apply types_loop_inv in Hloop as (Hdates & Hdtype & Hall & _).
  destruct Hdates as (dates & Hp & Hsub & Hnone).
  cbn [py.parse_dates py.dtype_of] in *. rewrite app_nil_l in Hp.
  rewrite Hp. split; [|split; [|done]].
  - intros col. split; [rewrite <- Hp; apply Hall|].
    intros [Hin|[d Hd]].
    + by eapply elem_of_sublist.
    + destruct (Hdtype col) as [Heq|(Hin & _)]; [|done].
      by rewrite Hd, lookup_empty in Heq.
  - intros col Hin. apply Hnone in Hin.
    destruct (Hdtype col) as [Heq|(_ & d & Hd & _)].
    + by rewrite Heq, lookup_empty.
    + congruence.
Qed.

(** X16.  When [get_types_from_catalog] returns, the columns it was given are
    split between the two arguments it builds: every column is either in
    [parse_dates] or has a dtype, never both; nothing else has an entry; and
    [parse_dates] keeps the order of the columns. *)
Theorem get_types_from_catalog_partition headers catalog stream r :
  py.get_types_from_catalog headers catalog stream = inr r →
  (∀ col, col ∈ headers ↔
          col ∈ py.parse_dates r ∨ is_Some (py.dtype_of r !! col)) ∧
  (∀ col, col ∈ py.parse_dates r → py.dtype_of r !! col = None) ∧
  py.parse_dates r `sublist_of` headers.
Proof.
  intros [types Hloop]%get_types_from_catalog_loop.
  by apply (types_loop_partition types).
Qed.

(** X17.  The catalog never types the first column of the file: the headers are
    read with [index_col=0] (line 409), so with distinct column names the
    first column gets neither a dtype nor a place in [parse_dates]. *)
Theorem get_types_from_catalog_first_column f catalog stream r c :
  py.get_types_from_catalog (py.headers_of f) catalog stream = inr r →
  NoDup (header f) →
  head (header f) = Some c →
  (c ∉ py.parse_dates r) ∧ py.dtype_of r !! c = None.
Proof.
  intros [types Hloop]%get_types_from_catalog_loop Hnd Hc.
  apply types_loop_partition in Hloop as (Hiff & _ & _).
  unfold py.headers_of in Hiff.
  destruct (header f) as [|c' cols]; [done|]. injection Hc as ->.
  apply NoDup_cons in Hnd as [Hc _]. simpl in Hiff.
  assert (¬ (c ∈ py.parse_dates r ∨ is_Some (py.dtype_of r !! c))) as Hn
    by by rewrite <- Hiff.
  split; [tauto|].
  destruct (py.dtype_of r !! c) eqn:E; [|done]. exfalso. apply Hn. eauto.
Qed.

Lemma filter_not_null_chars s :
  filter (λ t, py.is_str t "null" = false)
    (map (λ c, py.JStr (String c "")) (String.list_ascii_of_string s)) =
  map (λ c, py.JStr (String c "")) (String.list_ascii_of_string s).
Proof.
  induction (String.list_ascii_of_string s) as [|c l IH]; [done|].
  simpl. rewrite filter_cons_True; [by rewrite IH|].
  simpl. by apply bool_decide_eq_false_2.
Qed.

(** X18.  A schema entry whose ["type"] is a plain string and not a list, such as
    [{"type": "integer"}], always gives dtype object: the string is read
    character by character, and no single character is a key of the type
    mapper. *)
Theorem column_type_string_type items s :
  py.dict_get items "type" = Some (py.JStr s) →
  py.is_str (default py.JNull (py.dict_get items "format")) "date-time" =
    false →
  py.column_type (py.JDict items) = inr (Some py.object).
Proof.
  intros Htype Hformat. unfold py.column_type.
  assert (items ≠ []) as Hne by (by intros ->).
  cbn [py.truthy]. rewrite bool_decide_eq_true_2 by done.
  cbn [py.get py.and_then py.getitem]. rewrite Hformat, Htype.
  change (default py.JNull (Some (py.JStr s))) with (py.JStr s).
  cbn [py.truthy]. case_bool_decide as Hs; [|done].
  cbn [py.iter py.and_then]. rewrite filter_not_null_chars.
  destruct (String.list_ascii_of_string s) as [|c [|c' l]]; [done| |done].
  cbn [map py.type_mapper_get py.and_then py.is_str].
  by rewrite !bool_decide_eq_false_2.
Qed.

Lemma column_type_list items l :
  py.dict_get items "type" = Some (py.JList l) →
  py.column_type (py.JDict items) =
    if py.is_str (default py.JNull (py.dict_get items "format")) "date-time"
    then inr None
    else match filter (λ t, py.is_str t "null" = false) l with
         | [t] => py.and_then (py.type_mapper_get t) (λ d, inr (Some d))
         | _ => inr (Some py.object)
         end.
Proof.
  intros Htype. unfold py.column_type.
  assert (items ≠ []) as Hne by (by intros ->).
  cbn [py.truthy]. rewrite bool_decide_eq_true_2 by done.
  cbn [py.get py.and_then py.getitem]. rewrite Htype.
  destruct (py.is_str _ "date-time"); [done|].
  change (default py.JNull (Some (py.JList l))) with (py.JList l).
  cbn [py.truthy]. case_bool_decide as Hl; [done|by subst].
Qed.

(** X19.  Only the entries of a type list other than "null" count: two schema
    entries with the same format whose type lists agree after the "null"
    entries are removed give the same result, so the catalog cannot make a
    column nullable or not. *)
Theorem column_type_ignores_null items1 items2 l1 l2 :
  py.dict_get items1 "format" = py.dict_get items2 "format" →
  py.dict_get items1 "type" = Some (py.JList l1) →
  py.dict_get items2 "type" = Some (py.JList l2) →
  filter (λ t, py.is_str t "null" = false) l1 =
  filter (λ t, py.is_str t "null" = false) l2 →
  py.column_type (py.JDict items1) = py.column_type (py.JDict items2).
Proof.
  intros Hformat H1 H2 Hfilter.
  rewrite (column_type_list _ _ H1), (column_type_list _ _ H2).
  by rewrite Hformat, Hfilter.
Qed.

(** X20.  A catalog that lists no stream of the requested name makes
    [get_types_from_catalog] end in StopIteration: [next] has no default. *)
Theorem get_types_from_catalog_unknown_stream headers items l stream :
  py.dict_get items "streams" = Some (py.JList l) →
  Forall (λ c, ∃ name, py.getitem c "stream" = inr name ∧
                       py.is_str name stream = false) l →
  py.get_types_from_catalog headers (py.JDict items) stream =
    inl py.StopIteration.
Proof.
  intros Hstreams Hall. unfold py.get_types_from_catalog.
  cbn [py.getitem py.and_then]. rewrite Hstreams. cbn [py.iter py.and_then].
  assert (py.next_stream l stream = inl py.StopIteration) as ->; [|done].
  clear Hstreams.
  induction Hall as [|c l (name & Hname & Hne) _ IH]; [done|].
  cbn [py.next_stream]. rewrite Hname. cbn [py.and_then]. by rewrite Hne.
Qed.

(** ** Concrete runs of the further properties *)

(** The keys of the merged snapshot at the collision: stored (1, ha),
    incoming (1, hb). *)
Lemma snapshot_records_keys_witness :
  ∃ merged_data,
    snapshot_records (Some incoming_1_hb) "s" "out" (PkStr "pk") false
      collision_world =
      (inr (Some merged_data),
       put_file "out/s.snapshot.csv"
         (mkCsv (columns merged_data) (map cells (rows merged_data)))
         collision_world) ∧
    NoDup (map (pk_value ["pk"] (columns merged_data)) (rows merged_data)).
Proof.
  destruct (snapshot_records_keys incoming_1_hb "s" "out" (PkStr "pk") false
              collision_world stored_1_ha) as (m & Hrun & Hnd & _).
  - reflexivity.
  - reflexivity.
  - discriminate.
  - intros c Hc. apply list_elem_of_singleton in Hc as ->. left.
  - exists m. split; [exact Hrun|exact Hnd].
Defined.

(** A key column "id" that neither the stored snapshot nor the new data
    has. *)
Lemma snapshot_records_missing_pk_witness :
  snapshot_records (Some incoming_1_hb) "s" "out" (PkStr "id") false
    collision_world = (inl KeyError, collision_world).
Proof.
  apply (snapshot_records_missing_pk incoming_1_hb "s" "out" (PkStr "id")
           false collision_world stored_1_ha "id").
  - reflexivity.
  - left.
  - apply (bool_decide_unpack _). reflexivity.
  - apply (bool_decide_unpack _). reflexivity.
  - discriminate.
  - discriminate.
Defined.

(** Recording the stream "s" leaves the hash snapshot of "t" alone. *)
Lemma snapshot_records_other_files_witness :
  files (snapshot_records (Some incoming_1_hb) "s" "out" (PkStr "pk") false
           two_streams_world).2 !! "out/t.hash.snapshot.csv" =
    files two_streams_world !! "out/t.hash.snapshot.csv" ∧
  heap (snapshot_records (Some incoming_1_hb) "s" "out" (PkStr "pk") false
          two_streams_world).2 = heap two_streams_world.
Proof.
  apply (snapshot_records_other_files (Some incoming_1_hb) "s" "out"
           (PkStr "pk") false two_streams_world "out/t.hash.snapshot.csv").
  discriminate.
Defined.

(** A batch without the key column "id". *)
Lemma drop_redundant_missing_pk_witness :
  drop_redundant scenario_digest setitem_one_column 0%nat "s" "out"
    (PkList ["id"]) false without_id_world =
    (inl KeyError, push batch_without_id without_id_world).
Proof.
  apply (drop_redundant_missing_pk scenario_digest setitem_one_column 0%nat
           "s" "out" (PkList ["id"]) false without_id_world batch_without_id
           "id").
  - reflexivity.
  - reflexivity.
  - left.
  - apply (bool_decide_unpack _). reflexivity.
  - discriminate.
  - discriminate.
Defined.

(** Filtering the stream "s" leaves the hash snapshot of "t" alone. *)
Lemma drop_redundant_other_files_witness :
  files (drop_redundant scenario_digest setitem_one_column 0%nat "s" "out"
           (PkList ["id"]) true two_streams_world).2
    !! "out/t.hash.snapshot.csv" =
  files two_streams_world !! "out/t.hash.snapshot.csv".
Proof.
  apply (drop_redundant_other_files scenario_digest setitem_one_column 0%nat
           "s" "out" (PkList ["id"]) true two_streams_world
           "out/t.hash.snapshot.csv").
  discriminate.
Defined.

(** The file name of the docstring of [read_csv_folder]. *)
Lemma entity_type_csv_witness :
  entity_type ".csv" "sync-output/Account-20200811T121507.csv" = "Account".
Proof.
  apply (entity_type_csv "sync-output" "Account" "20200811T121507");
    reflexivity.
Defined.

Lemma entity_type_reader_witness :
  entity_type "." "sync-output/Account-20200811T121507.parquet" = "Account".
Proof.
  apply (entity_type_reader "sync-output" "Account" "20200811T121507"
           "parquet"); reflexivity.
Defined.

(** A reader pointed at one file. *)
Lemma read_directories_not_a_directory_witness :
  read_directories sync_output "in/A-1.csv" [] = {["A" := "in/A-1.csv"]}.
Proof.
  exact (read_directories_not_a_directory sync_output "in/A-1.csv" []
           eq_refl).
Defined.

(** The stream "A" of the folder "in". *)
Lemma read_directories_files_witness :
  ∃ entry,
    entry ∈ os_listdir sync_output "in" ∧
    "in/A-1.csv" = path_join "in" entry ∧
    os_isfile sync_output "in/A-1.csv" = true ∧
    (endswith "in/A-1.csv" ".csv" = true ∨
     endswith "in/A-1.csv" ".parquet" = true) ∧
    entity_type "." "in/A-1.csv" = "A" ∧ "A" ∉ ["B"].
Proof.
  apply (read_directories_files sync_output "in" ["B"] "A" "in/A-1.csv").
  - reflexivity.
  - by vm_compute.
Defined.

(** Reading the folder "in". *)
Lemma read_csv_folder_lookup_witness :
  ∃ results,
    read_csv_folder sync_output "in" [] sync_output_world =
      (inr results, sync_output_world) ∧
    results !! "A" = Some (frame_of_csv scenario_snapshot).
Proof.
  destruct (read_csv_folder_lookup sync_output "in" [] sync_output_world)
    as (results & Hrun & Hlookup).
  - apply Forall_forall. apply (bool_decide_unpack _). by vm_compute.
  - exists results. split; [exact Hrun|]. rewrite Hlookup. by vm_compute.
Defined.

(** Reading one file. *)
Lemma read_csv_folder_not_a_directory_witness :
  read_csv_folder sync_output "in/A-1.csv" [] sync_output_world =
    (inr {["A" := frame_of_csv scenario_snapshot]}, sync_output_world).
Proof.
  exact (read_csv_folder_not_a_directory sync_output "in/A-1.csv" []
           sync_output_world eq_refl).
Defined.

(** The columns "amount" and "created" of the stream "invoices". *)
Lemma get_types_from_catalog_partition_witness :
  (∀ col, col ∈ ["amount"; "created"] ↔
          col ∈ ["created"] ∨
          is_Some (({["amount" := py.float]} : gmap string py.dtype) !! col)) ∧
  (∀ col, col ∈ ["created"] →
          ({["amount" := py.float]} : gmap string py.dtype) !! col = None) ∧
  ["created"] `sublist_of` ["amount"; "created"].
Proof.
  refine (get_types_from_catalog_partition ["amount"; "created"]
            (py.JDict invoices_catalog) "invoices"
            (py.mkArgs {["amount" := py.float]} ["created"]) _).
  by vm_compute.
Defined.

(** The column "id" of the file of the stream "invoices". *)
Lemma get_types_from_catalog_first_column_witness :
  ("id" ∉ ["created"]) ∧
  ({["amount" := py.float]} : gmap string py.dtype) !! "id" = None.
Proof.
  refine (get_types_from_catalog_first_column invoices_file
            (py.JDict invoices_catalog) "invoices"
            (py.mkArgs {["amount" := py.float]} ["created"]) "id" _ _ _).
  - by vm_compute.
  - apply (bool_decide_unpack _). reflexivity.
  - reflexivity.
Defined.

Lemma column_type_string_type_witness :
  py.column_type (py.JDict [("type", py.JStr "integer")]) =
    inr (Some py.object).
Proof.
  apply (column_type_string_type [("type", py.JStr "integer")] "integer");
    reflexivity.
Defined.

Lemma column_type_ignores_null_witness :
  py.column_type
    (py.JDict [("type", py.JList [py.JStr "null"; py.JStr "integer"])]) =
  py.column_type (py.JDict [("type", py.JList [py.JStr "integer"])]).
Proof.
  apply (column_type_ignores_null
           [("type", py.JList [py.JStr "null"; py.JStr "integer"])]
           [("type", py.JList [py.JStr "integer"])]
           [py.JStr "null"; py.JStr "integer"] [py.JStr "integer"]);
    reflexivity.
Defined.

(** The catalog of "invoices" asked for the stream "payments". *)
Lemma get_types_from_catalog_unknown_stream_witness :
  py.get_types_from_catalog ["amount"] (py.JDict invoices_catalog) "payments" =
    inl py.StopIteration.
Proof.
  apply (get_types_from_catalog_unknown_stream ["amount"] invoices_catalog
           invoices_streams "payments").
  - reflexivity.
  - constructor; [|constructor].
    exists (py.JStr "invoices"). split; reflexivity.
Defined.
